(** * Fython: the config-script lexer, classifier, parser and evaluator

    A shallow embedding of
    [custom_components/faux_python_scripting/fython_parser.py] and
    [custom_components/faux_python_scripting/fython_runner.py].

    Python values are modelled as follows.
    - [str] is [string], read as a sequence of code points below 256: the
      character [ascii_of_nat n] is the code point [n] (so 233 is the
      letter e with an acute accent).  [isalpha], [isdigit] and [isnumeric]
      are Python's tests on those 256 code points.  A string literal of
      this file holds ASCII text only.
    - [float] is the primitive binary64 type [float].
    - a [dict] is an object in a heap: a value holds a reference to it and
      the heap maps the reference to a [gmap string pyval].
    - an exception is a constructor of [exn]; a computation returns
      [Ok], [Raise] or, for the fuelled loops, [OutOfFuel]. *)

From Stdlib Require Import PrimFloat Ascii String.
From stdpp Require Import gmap strings list.

Set Warnings "-register-all".

Open Scope string_scope.
Open Scope list_scope.

(* ===================================================================== *)
(** ** Python built-ins on characters and strings *)
(* ===================================================================== *)

(** [n] lies in [lo..hi]. *)
Definition between (lo hi n : nat) : bool := (lo <=? n)%nat && (n <=? hi)%nat.

(** [c.isdigit()]: the decimal digits and the superscripts two, three and
    one (178, 179, 185). *)
Definition isdigit (c : ascii) : bool :=
  let n := nat_of_ascii c in
  between 48 57 n || between 178 179 n || (n =? 185)%nat.

(** [c.isalpha()]: the letters of the first 256 code points, that is A-Z,
    a-z, the ordinal indicators 170 and 186, the micro sign 181, and 192-255
    without the multiplication sign 215 and the division sign 247. *)
Definition isalpha (c : ascii) : bool :=
  let n := nat_of_ascii c in
  between 65 90 n || between 97 122 n
  || (n =? 170)%nat || (n =? 181)%nat || (n =? 186)%nat
  || between 192 214 n || between 216 246 n || between 248 255 n.

(** [c.isnumeric()]: the digits and the fractions 188-190. *)
Definition isnumeric (c : ascii) : bool :=
  isdigit c || between 188 190 (nat_of_ascii c).

(** [c in s] for a one-character string [c]. *)
Definition char_in (c : ascii) (s : string) : bool :=
  existsb (Ascii.eqb c) (list_ascii_of_string s).

(** [needle in hay] on two strings: the substring test. *)
Fixpoint str_in (needle hay : string) : bool :=
  String.prefix needle hay ||
  match hay with
  | EmptyString => false
  | String _ hay' => str_in needle hay'
  end.

(** [s.isalnum()]: non-empty and every character a letter, a digit or
    numeric. *)
Definition str_isalnum (s : string) : bool :=
  negb (String.eqb s "") &&
  forallb (fun c => isalpha c || isdigit c || isnumeric c)
    (list_ascii_of_string s).

(** [s.split(sep)] for a one-character separator; [cur] is the segment
    being read.  The result always has at least one segment. *)
Fixpoint split_from (sep : ascii) (s : string) (cur : list ascii) : list string :=
  match s with
  | EmptyString => [string_of_list_ascii cur]
  | String c s' =>
      if Ascii.eqb c sep
      then string_of_list_ascii cur :: split_from sep s' []
      else split_from sep s' (cur ++ [c])
  end.

Definition split (sep : ascii) (s : string) : list string := split_from sep s [].

(** ["".join(l)] *)
Definition join (l : list string) : string := String.concat "" l.

(* ===================================================================== *)
(** ** Module constants of fython_parser.py *)
(* ===================================================================== *)

Definition VAR_KW : list string :=
  ["def"; "if"; "else"; "elif"; "and"; "or"; "not"; "in"; "for"].
Definition WORD_CHAR : string := "_".
Definition MATH_KW : string := "+-*/=".
Definition dquote : ascii := ascii_of_nat 34.
Definition QUOTE : string := String dquote "'".
Definition PUNCTUATION : string := "(),:[].}{" +:+ String dquote "'#".
Definition tab : ascii := ascii_of_nat 9.
Definition newline : ascii := ascii_of_nat 10.
Definition WHITE_SPACE : string := String tab " ".
Definition LINE_BREAK : string := String newline "".

Inductive SymbolType :=
| Punctuation
| Value
| Name
| Whitespace_spacing
| Whitespace_separator
| LineBreak
| MathOperation
| Keyword.

(** [Symbol = namedtuple("Symbol", "word type file_index line_index pos_index")] *)
Record Symbol := mkSymbol {
  word : string;
  type : SymbolType;
  file_index : nat;
  line_index : nat;
  pos_index : nat
}.

(* ===================================================================== *)
(** ** Exceptions and results *)
(* ===================================================================== *)

(** What the f-string of a [raise] reports, one constructor per raise
    site whose exception class is bound. *)
Inductive message :=
| IllegalSymbol (c : ascii)              (* parser 74 *)
| UnidentifiedSymbol (w : string)        (* parser 136 *)
| InvalidProgramNode.                    (* runner 30 *)

(** The exceptions.  [InvalidFythonSyntaxException] is the class the
    parser declares; the others are built in.  [NameError name] is what the
    look-up of a name bound nowhere raises: the [raise] statements of
    [_parse_args] (line 231), [_evaluate_program] (lines 41, 49, 51) and
    [_run_func] (lines 65, 74) name [InvalidSyntaxException] and
    [RuntimeException], and [evaluate_script] calls [_parse_program]; neither
    file binds these names, so the statements raise [NameError] before the
    message is built. *)
Inductive exn :=
| InvalidFythonSyntaxException (m : message)
| RuntimeError (m : message)
| NameError (name : string)
| IndexError
| TypeError
| ValueError
| AttributeError
| KeyError
| ZeroDivisionError.

(** The two error kinds of the package. *)
Definition is_syntax_error (e : exn) : bool :=
  match e with
  | InvalidFythonSyntaxException _ => true
  | _ => false
  end.

Definition is_runtime_error (e : exn) : bool :=
  match e with
  | RuntimeError _ => true
  | _ => false
  end.

Inductive res (A : Type) :=
| Ok (a : A)
| Raise (e : exn)
| OutOfFuel.
Arguments Ok {A} a.
Arguments Raise {A} e.
Arguments OutOfFuel {A}.

Definition res_bind {A B} (r : res A) (k : A -> res B) : res B :=
  match r with
  | Ok a => k a
  | Raise e => Raise e
  | OutOfFuel => OutOfFuel
  end.

Declare Scope res_scope.
Delimit Scope res_scope with res.
Notation "'let?' x ':=' c 'in' k" := (res_bind c (fun x => k))
  (at level 10, x pattern, c at level 100, k at level 200) : res_scope.

(* ===================================================================== *)
(** ** Lexer: decompose_script *)
(* ===================================================================== *)

(** ["".join(word_buffer)] *)
Definition flush (word_buffer : list ascii) : string :=
  string_of_list_ascii word_buffer.

(** The inner [while] of the white-space branch:
    [while char_idx + 1 < len(script) and script[char_idx + 1] == char].
    Every round advances [char_idx], so [len(script)] rounds are enough. *)
Fixpoint aggregate (n : nat) (script : string) (char : ascii)
    (char_idx : nat) (word_buffer : list ascii) : nat * list ascii :=
  match n with
  | O => (char_idx, word_buffer)
  | S n' =>
      match String.get (char_idx + 1) script with
      | Some c =>
          if Ascii.eqb c char
          then aggregate n' script char (char_idx + 1) (word_buffer ++ [c])
          else (char_idx, word_buffer)
      | None => (char_idx, word_buffer)
      end
  end.

(** The outer [while char_idx < len(script)] with its three mutable
    variables.  [String.get] returns [None] exactly when
    [char_idx >= len(script)]. *)
Fixpoint decompose_loop (n : nat) (script : string) (char_idx : nat)
    (word_list : list string) (word_buffer : list ascii)
    : res (list string * list ascii) :=
  match String.get char_idx script with
  | None => Ok (word_list, word_buffer)
  | Some char =>
      match n with
      | O => OutOfFuel
      | S n' =>
          if isalpha char || isdigit char || char_in char WORD_CHAR then
            decompose_loop n' script (char_idx + 1) word_list (word_buffer ++ [char])
          else if char_in char MATH_KW || char_in char PUNCTUATION
                  || char_in char LINE_BREAK then
            let word_list :=
              if (0 <? length word_buffer)%nat
              then word_list ++ [flush word_buffer] else word_list in
            let word_buffer : list ascii :=
              if (0 <? length word_buffer)%nat then [] else word_buffer in
            decompose_loop n' script (char_idx + 1)
              (word_list ++ [String char ""]) word_buffer
          else if char_in char WHITE_SPACE then
            let word_list :=
              if (0 <? length word_buffer)%nat
              then word_list ++ [flush word_buffer] else word_list in
            let '(char_idx, word_buffer) :=
              aggregate (String.length script) script char char_idx [char] in
            decompose_loop n' script (char_idx + 1)
              (word_list ++ [flush word_buffer]) word_buffer
          else Raise (InvalidFythonSyntaxException (IllegalSymbol char))
      end
  end.

Definition decompose_script (script : string) : res (list string) :=
  (let? (word_list, word_buffer) :=
     decompose_loop (String.length script) script 0 [] [] in
   Ok (if (0 <? length word_buffer)%nat
       then word_list ++ [flush word_buffer] else word_list))%res.

(** The scripts the lexer accepts: every character is in one of the three
    recognised classes. *)
Definition lexable (script : string) : bool :=
  forallb (fun c =>
    isalpha c || isdigit c || char_in c WORD_CHAR
    || char_in c MATH_KW || char_in c PUNCTUATION || char_in c LINE_BREAK
    || char_in c WHITE_SPACE) (list_ascii_of_string script).

(** A character of the first two classes: a word character or a
    one-character token. *)
Definition word_or_special (c : ascii) : bool :=
  isalpha c || isdigit c || char_in c WORD_CHAR
  || char_in c MATH_KW || char_in c PUNCTUATION || char_in c LINE_BREAK.

(* ===================================================================== *)
(** ** Values, and the names the two files use and do not define *)
(* ===================================================================== *)

(** Values on the evaluation stack and in the context: [None], a float, a
    string, or a reference to a [dict] of the heap. *)
Inductive pyval :=
| VNone
| VNum (x : float)
| VStr (s : string)
| VRef (l : nat).

(** [FUNCTION_KW], the three regular expressions, [_parse_24h_clock],
    [_parse_duration] and [time.normalize_time] are used by [_parse_node]
    and defined in neither file; they are parameters of the development.
    A [*_REGEX] field is [re.search(REGEX, word)] read as a truth value and
    [FUNCTION_KW] is the test [word in FUNCTION_KW].  [float_of_str] is
    Python's [float] applied to a string; it raises [ValueError] on a string
    that is no number. *)
Class Env := {
  FUNCTION_KW : string -> bool;
  CLOCK_REGEX : string -> bool;
  FLOAT_REGEX : string -> bool;
  DURATION_REGEX : string -> bool;
  _parse_24h_clock : string -> res pyval;
  _parse_duration : string -> res pyval;
  normalize_time : string -> res pyval;
  float_of_str : string -> res float
}.

(* ===================================================================== *)
(** ** Classifier: classify_word *)
(* ===================================================================== *)

(** [Symbol.Name] and [Symbol.Value] (lines 121 and 133) are attribute
    look-ups on the namedtuple class [Symbol] of line 19, whose fields are
    [word], [type], [file_index], [line_index] and [pos_index]; the class
    has no attribute [Name] or [Value], and the look-up raises
    [AttributeError].  The other branches read the class [SymbolType]. *)
Definition Symbol_Name : res SymbolType := Raise AttributeError.
Definition Symbol_Value : res SymbolType := Raise AttributeError.

(** [all(w.isalnum() for w in word.split(WORD_CHAR) if len(w) > 0)
     and not word[0].isdigit()] *)
Definition is_identifier (word : string) : res bool :=
  if forallb str_isalnum
       (List.filter (fun w_idx => (0 <? String.length w_idx)%nat) (split "_" word))
  then match String.get 0 word with
       | Some c => Ok (negb (isdigit c))
       | None => Raise IndexError
       end
  else Ok false.

Definition classify_word `{Env} (word : string) (pos_index : nat) : res SymbolType :=
  let single : option SymbolType :=
    if (String.length word =? 1)%nat then
      if str_in word PUNCTUATION then Some Punctuation
      else if str_in word MATH_KW then Some MathOperation
      else if String.eqb word LINE_BREAK then Some LineBreak
      else None
    else None in
  match single with
  | Some t => Ok t
  | None =>
      if existsb (String.eqb word) VAR_KW then Ok Keyword
      else
        (let? name := is_identifier word in
         if name then Symbol_Name
         else if forallb (fun char => char_in char WHITE_SPACE)
                   (list_ascii_of_string word) then
           Ok (if (pos_index =? 0)%nat then Whitespace_spacing
               else Whitespace_separator)
         else
           match float_of_str word with
           | Ok _ => Symbol_Value
           | Raise ValueError =>
               Raise (InvalidFythonSyntaxException (UnidentifiedSymbol word))
           | Raise e => Raise e
           | OutOfFuel => OutOfFuel
           end)%res
  end.

(* ===================================================================== *)
(** ** Quote scanning: extract_quote *)
(* ===================================================================== *)

(** [symbol.value]: the scan reads the attribute [value] of its symbols.
    The symbols are the [Symbol] tuples of line 19 (the caller passes a
    [List[Symbol]]), whose text field is [word]; they have no attribute
    [value], and the read raises [AttributeError]. *)
Definition Symbol_value (symbol : Symbol) : res string := Raise AttributeError.

(** The [while symbol.value != initiating_symbol.value] loop.  Every round
    advances [symbol_index] and reads [symbol_list[symbol_index]], so it
    ends within [len(symbol_list)] rounds. *)
Fixpoint extract_quote_loop (n : nat) (symbol_list : list Symbol)
    (initiating_symbol : Symbol) (symbol_index : nat) (symbol : Symbol)
    (quote_value_list : list string) : res (string * nat) :=
  (let? value := Symbol_value symbol in
   let? initiating_value := Symbol_value initiating_symbol in
   if negb (String.eqb value initiating_value) then
     match n with
     | O => OutOfFuel
     | S n' =>
         let? value := Symbol_value symbol in
         match symbol_list !! (symbol_index + 1)%nat with
         | None => Raise IndexError
         | Some symbol' =>
             extract_quote_loop n' symbol_list initiating_symbol
               (symbol_index + 1) symbol' (quote_value_list ++ [value])
         end
     end
   else Ok (join quote_value_list, (symbol_index + 1)%nat))%res.

Definition extract_quote (symbol_index : nat) (symbol_list : list Symbol)
    (initiating_symbol : Symbol) : res (string * nat) :=
  match symbol_list !! symbol_index with
  | None => Raise IndexError
  | Some symbol =>
      extract_quote_loop (length symbol_list) symbol_list initiating_symbol
        symbol_index symbol []
  end.

(* ===================================================================== *)
(** ** Parser: _parse_node and _parse_args *)
(* ===================================================================== *)

(** An instruction node, the dict [{"type": t, "value": v}] with [t] one of
    ["var"], ["arithmatic"], ["func"] (which also has ["args"]) and
    ["punc"]. *)
Inductive node :=
| Var (value : pyval)
| Arithmatic (value : string)
| Func (value : string) (args : list (list node))
| Punc (value : string).

(** [node["type"] == "punc" and node["value"] == w] *)
Definition is_punc (w : string) (n : node) : bool :=
  match n with
  | Punc v => String.eqb v w
  | _ => false
  end.

Section parse_args.
(** [_parse_args] over the node parser it calls. *)
Variable parse_node : list string -> nat -> res (node * nat).

(** The [while] loop of [_parse_args] from its first test on: [args] and
    [prog] are the two accumulators. *)
Fixpoint args_loop (n : nat) (word_list : list string) (word_index : nat)
    (args : list (list node)) (prog : list node)
    : res (list (list node) * nat) :=
  match n with
  | O => OutOfFuel
  | S n' =>
      (let? (next_node, word_index) := parse_node word_list word_index in
       if is_punc "," next_node then
         args_loop n' word_list word_index (args ++ [prog]) []
       else if is_punc ")" next_node then
         Ok (args ++ [prog], word_index)
       else
         args_loop n' word_list word_index args (prog ++ [next_node]))%res
  end.

Definition parse_args_with (n : nat) (word_list : list string)
    (word_index : nat) : res (list (list node) * nat) :=
  (let? (next_node, word_index) := parse_node word_list word_index in
   if negb (is_punc "(" next_node) then
     Raise (NameError "InvalidSyntaxException")
   else args_loop n word_list word_index [] [])%res.

End parse_args.

(** [_parse_node]; [timezone] is passed along and never read, and is left
    out.  The last branch leaves [word_index] as it is. *)
Fixpoint _parse_node `{Env} (fuel : nat) (word_list : list string)
    (word_index : nat) : res (node * nat) :=
  match fuel with
  | O => OutOfFuel
  | S fuel' =>
      match word_list !! word_index with
      | None => Raise IndexError
      | Some word =>
          if FUNCTION_KW word then
            (let? (args, word_index) :=
               parse_args_with (_parse_node fuel') fuel' word_list
                 (word_index + 1) in
             Ok (Func word args, word_index))%res
          else if str_in word PUNCTUATION then
            Ok (Punc word, (word_index + 1)%nat)
          else if str_in word MATH_KW then
            Ok (Arithmatic word, (word_index + 1)%nat)
          else if CLOCK_REGEX word then
            (let? v := _parse_24h_clock word in
             Ok (Var v, (word_index + 1)%nat))%res
          else if FLOAT_REGEX word then
            (let? x := float_of_str (join (split "_" word)) in
             Ok (Var (VNum x), (word_index + 1)%nat))%res
          else if DURATION_REGEX word then
            (let? v := _parse_duration word in
             Ok (Var v, (word_index + 1)%nat))%res
          else if existsb (String.eqb word) VAR_KW then
            (let? v := normalize_time word in
             Ok (Var v, (word_index + 1)%nat))%res
          else
            Ok (Var (VStr word), word_index)
      end
  end.

Definition _parse_args `{Env} (fuel : nat) (word_list : list string)
    (word_index : nat) : res (list (list node) * nat) :=
  parse_args_with (_parse_node fuel) fuel word_list word_index.

(* ===================================================================== *)
(** ** The heap and the evaluation monad *)
(* ===================================================================== *)

(** The heap holds every [dict] the evaluator can reach: the context
    mapping and the mappings nested in it.  A computation of the evaluator
    takes the heap and returns its outcome with the heap it leaves. *)
Abbreviation heap := (gmap nat (gmap string pyval)).

Definition M (A : Type) : Type := heap -> res A * heap.

Definition ret {A} (a : A) : M A := fun h => (Ok a, h).
Definition raise {A} (e : exn) : M A := fun h => (Raise e, h).
Definition out_of_fuel {A} : M A := fun h => (OutOfFuel, h).
Definition lift {A} (r : res A) : M A := fun h => (r, h).

Definition bind {A B} (m : M A) (k : A -> M B) : M B :=
  fun h =>
    match m h with
    | (Ok a, h') => k a h'
    | (Raise e, h') => (Raise e, h')
    | (OutOfFuel, h') => (OutOfFuel, h')
    end.

Declare Scope M_scope.
Delimit Scope M_scope with M.
Notation "'let*' x ':=' c 'in' k" := (bind c (fun x => k))
  (at level 10, x pattern, c at level 100, k at level 200) : M_scope.

(** The list comprehension [[f(x) for x in l]]. *)
Fixpoint for_each {A B} (f : A -> M B) (l : list A) : M (list B) :=
  match l with
  | [] => ret []
  | x :: l' =>
      (let* y := f x in
       let* ys := for_each f l' in
       ret (y :: ys))%M
  end.

(** The object a reference denotes. *)
Definition deref (l : nat) : M (option (gmap string pyval)) :=
  fun h => (Ok (h !! l), h).

(* ===================================================================== *)
(** ** Python operators on values *)
(* ===================================================================== *)

(** [var1 + var2]: float addition or string concatenation. *)
Definition py_add (var1 var2 : pyval) : res pyval :=
  match var1, var2 with
  | VNum x, VNum y => Ok (VNum (x + y)%float)
  | VStr s, VStr t => Ok (VStr (s +:+ t))
  | _, _ => Raise TypeError
  end.

Definition py_sub (var1 var2 : pyval) : res pyval :=
  match var1, var2 with
  | VNum x, VNum y => Ok (VNum (x - y)%float)
  | _, _ => Raise TypeError
  end.

Definition py_mul (var1 var2 : pyval) : res pyval :=
  match var1, var2 with
  | VNum x, VNum y => Ok (VNum (x * y)%float)
  | _, _ => Raise TypeError
  end.

(** [var1 / var2]: a zero divisor (of either sign) raises. *)
Definition py_truediv (var1 var2 : pyval) : res pyval :=
  match var1, var2 with
  | VNum x, VNum y =>
      if PrimFloat.eqb y 0%float then Raise ZeroDivisionError
      else Ok (VNum (x / y)%float)
  | _, _ => Raise TypeError
  end.

(** [a < b]: defined between two floats and between two strings. *)
Definition py_lt (a b : pyval) : res bool :=
  match a, b with
  | VNum x, VNum y => Ok (PrimFloat.ltb x y)
  | VStr s, VStr t => Ok (String.ltb s t)
  | _, _ => Raise TypeError
  end.

(** [min(args)] keeps the first item and replaces it by each later item
    that is smaller; [max(args)] replaces it by each later item that is
    greater.  An empty list raises [ValueError]. *)
Fixpoint min_from (best : pyval) (rest : list pyval) : res pyval :=
  match rest with
  | [] => Ok best
  | item :: rest' =>
      (let? smaller := py_lt item best in
       min_from (if smaller then item else best) rest')%res
  end.

Fixpoint max_from (best : pyval) (rest : list pyval) : res pyval :=
  match rest with
  | [] => Ok best
  | item :: rest' =>
      (let? greater := py_lt best item in
       max_from (if greater then item else best) rest')%res
  end.

Definition py_min (args : list pyval) : res pyval :=
  match args with
  | [] => Raise ValueError
  | first :: rest => min_from first rest
  end.

Definition py_max (args : list pyval) : res pyval :=
  match args with
  | [] => Raise ValueError
  | first :: rest => max_from first rest
  end.

(** [path in lookup_step]: key membership on a dict, the substring test on
    a string, [TypeError] on [None] and on a float. *)
Definition py_contains (path : string) (lookup_step : pyval) : M bool :=
  match lookup_step with
  | VRef l =>
      (let* d := deref l in
       match d with
       | Some d => ret (match d !! path with Some _ => true | None => false end)
       | None => raise TypeError
       end)%M
  | VStr s => ret (str_in path s)
  | VNone | VNum _ => raise TypeError
  end.

(** [lookup_step[path]] with a string [path]: the entry of a dict
    ([KeyError] when it has none), [TypeError] on a string (its indices are
    integers), on [None] and on a float. *)
Definition py_getitem (lookup_step : pyval) (path : string) : M pyval :=
  match lookup_step with
  | VRef l =>
      (let* d := deref l in
       match d with
       | Some d =>
           match d !! path with
           | Some v => ret v
           | None => raise KeyError
           end
       | None => raise TypeError
       end)%M
  | VStr _ | VNone | VNum _ => raise TypeError
  end.

(* ===================================================================== *)
(** ** Evaluator: _run_func and _evaluate_program *)
(* ===================================================================== *)

(** The [for path in lookup_path] loop of the [lookup] branch. *)
Fixpoint lookup_walk (lookup_path : list string) (lookup_step : pyval) : M pyval :=
  match lookup_path with
  | [] => ret lookup_step
  | path :: lookup_path' =>
      (let* present := py_contains path lookup_step in
       if negb present then ret VNone
       else
         let* lookup_step := py_getitem lookup_step path in
         lookup_walk lookup_path' lookup_step)%M
  end.

(** [_run_func].  The two [raise] statements (lines 65 and 74) name
    [RuntimeException] and raise [NameError]. *)
Definition _run_func (func_name : string) (args : list pyval)
    (global_var : pyval) : M pyval :=
  if String.eqb func_name "min" then lift (py_min args)
  else if String.eqb func_name "max" then lift (py_max args)
  else if String.eqb func_name "lookup" then
    if (1 <? length args)%nat then raise (NameError "RuntimeException")
    else
      match args with
      | [] => raise IndexError
      | VStr s :: _ => lookup_walk (split "." s) global_var
      | _ :: _ => raise AttributeError
      end
  else raise (NameError "RuntimeException").

(** [exec_stack.pop(-1)]: the stack grows at its end. *)
Definition pop (exec_stack : list pyval) : res (pyval * list pyval) :=
  match rev exec_stack with
  | [] => Raise IndexError
  | v :: r => Ok (v, rev r)
  end.

(** The operator dispatch of the arithmetic branch; its last case is the
    [raise] of line 41, which names [RuntimeException] and raises
    [NameError]. *)
Definition apply_arithmatic (op : string) (var1 var2 : pyval) : res pyval :=
  if String.eqb op "+" then py_add var1 var2
  else if String.eqb op "-" then py_sub var1 var2
  else if String.eqb op "/" then py_truediv var1 var2
  else if String.eqb op "*" then py_mul var1 var2
  else Raise (NameError "RuntimeException").

Section exec_loop.
(** The [while prog_idx < len(prog)] loop over the evaluator it calls for
    a function operand and for the arguments of a call; both calls leave
    [global_var] at its default, [None]. *)
Variable evaluate : list node -> pyval -> M pyval.

Fixpoint exec_loop (n : nat) (prog : list node) (global_var : pyval)
    (prog_idx : nat) (exec_stack : list pyval) : M (list pyval) :=
  match prog !! prog_idx with
  | None => ret exec_stack
  | Some instr =>
      match n with
      | O => out_of_fuel
      | S n' =>
          match instr with
          | Var v =>
              exec_loop n' prog global_var (prog_idx + 1) (exec_stack ++ [v])
          | Arithmatic op =>
              match prog !! (prog_idx + 1)%nat with
              | None => raise IndexError
              | Some next_node =>
                  (let* var2 :=
                     match next_node with
                     | Var v => ret v
                     | Func _ _ => evaluate [next_node] VNone
                     | _ => raise (RuntimeError InvalidProgramNode)
                     end in
                   let* (var1, exec_stack) := lift (pop exec_stack) in
                   let* r := lift (apply_arithmatic op var1 var2) in
                   exec_loop n' prog global_var (prog_idx + 2)
                     (exec_stack ++ [r]))%M
              end
          | Func func args =>
              (let* args := for_each (fun arg => evaluate arg VNone) args in
               let* r := _run_func func args global_var in
               exec_loop n' prog global_var (prog_idx + 1)
                 (exec_stack ++ [r]))%M
          | Punc _ =>
              raise (NameError "RuntimeException")
          end
      end
  end.

(** The check after the loop.  The [raise] of line 51 names
    [RuntimeException]; the only class the file declares is
    [FythonRuntimeError], so the statement raises [NameError] and the message
    with the stack is never built. *)
Definition final_check (exec_stack : list pyval) : M pyval :=
  if negb (length exec_stack =? 1)%nat then
    raise (NameError "RuntimeException")
  else (let* (v, _) := lift (pop exec_stack) in ret v)%M.

End exec_loop.

(** [_evaluate_program]; [fuel] bounds the depth of the nested calls, and
    the loop of one call runs at most [len(prog)] rounds, since every round
    advances [prog_idx]. *)
Fixpoint _evaluate_program (fuel : nat) (prog : list node) (global_var : pyval)
    : M pyval :=
  match fuel with
  | O => out_of_fuel
  | S fuel' =>
      (let* exec_stack :=
         exec_loop (_evaluate_program fuel') (length prog) prog global_var 0 [] in
       final_check exec_stack)%M
  end.

(* ===================================================================== *)
(** ** Specification-side definitions *)
(* ===================================================================== *)

(** The concatenation of the token texts. *)
Definition token_texts (word_list : list string) : string := join word_list.

(** The argument sub-programs as the specification words them: the nodes
    between the parentheses, cut at every [","] node. *)
Fixpoint spec_arguments (nodes : list node) : list (list node) :=
  match nodes with
  | [] => [[]]
  | n :: nodes' =>
      if is_punc "," n then [] :: spec_arguments nodes'
      else
        match spec_arguments nodes' with
        | prog :: args => (n :: prog) :: args
        | [] => [[n]]
        end
  end.

(** The accumulators [args] and [prog] with the arguments of the nodes
    still to come: the first of them continues [prog]. *)
Definition continue_with (args : list (list node)) (prog : list node)
    (rest : list (list node)) : list (list node) :=
  match rest with
  | first :: others => args ++ (prog ++ first) :: others
  | [] => args ++ [prog]
  end.

(** [node_run parse_node word_list i nodes k]: the successive calls of the
    node parser from word [i] return [nodes], none of them the [")"]
    node, and leave the cursor at [k]. *)
Inductive node_run (parse_node : list string -> nat -> res (node * nat))
    (word_list : list string) : nat -> list node -> nat -> Prop :=
| node_run_nil i : node_run parse_node word_list i [] i
| node_run_cons i n j nodes k :
    parse_node word_list i = Ok (n, j) ->
    is_punc ")" n = false ->
    node_run parse_node word_list j nodes k ->
    node_run parse_node word_list i (n :: nodes) k.

(** The walk of [lookup] as the specification words it: a segment the
    current mapping holds leads to its value, and any other segment is
    absent and gives [None]. *)
Fixpoint spec_lookup (h : heap) (segments : list string) (v : pyval) : pyval :=
  match segments with
  | [] => v
  | seg :: segments' =>
      match v with
      | VRef l =>
          match h !! l ≫= (fun d => d !! seg) with
          | Some v' => spec_lookup h segments' v'
          | None => VNone
          end
      | _ => VNone
      end
  end.

(** Every value the walk reaches while a segment remains is a mapping. *)
Fixpoint through_mappings (h : heap) (segments : list string) (v : pyval) : bool :=
  match segments with
  | [] => true
  | seg :: segments' =>
      match v with
      | VRef l =>
          match h !! l with
          | Some d =>
              match d !! seg with
              | Some v' => through_mappings h segments' v'
              | None => true
              end
          | None => false
          end
      | _ => false
      end
  end.

(** [resolves h v segments v']: every segment is a key of the mapping
    reached so far, and the last one leads to [v']. *)
Inductive resolves (h : heap) : pyval -> list string -> pyval -> Prop :=
| resolves_nil v : resolves h v [] v
| resolves_cons l d seg v segments v' :
    h !! l = Some d ->
    d !! seg = Some v ->
    resolves h v segments v' ->
    resolves h (VRef l) (seg :: segments) v'.

(** The nesting of function calls in a node, two levels a call: one for
    the call evaluated as an operand, one for its arguments. *)
Fixpoint node_depth (n : node) : nat :=
  match n with
  | Func _ args =>
      2 + list_max (map (fun arg => list_max (map node_depth arg)) args)
  | _ => 0
  end.

Definition prog_depth (prog : list node) : nat := list_max (map node_depth prog).

(** A computation that does not run out of fuel. *)
Definition has_fuel {A} (m : M A) : Prop := forall h, fst (m h) <> OutOfFuel.

(** A computation that leaves the heap as it found it, whatever its
    outcome. *)
Definition preserves_heap {A} (m : M A) : Prop := forall h, snd (m h) = h.

(* ===================================================================== *)
(** ** Sample data for the closed examples *)
(* ===================================================================== *)

(** The instruction sequences of ["2 - 1 - 1"] and ["min(1,2) + 3"]. *)
Definition prog_2_minus_1_minus_1 : list node :=
  [Var (VNum 2); Arithmatic "-"; Var (VNum 1); Arithmatic "-"; Var (VNum 1)].

Definition prog_min_1_2_plus_3 : list node :=
  [Func "min" [[Var (VNum 1)]; [Var (VNum 2)]]; Arithmatic "+"; Var (VNum 3)].

(** The context [{"sensor": {"temp": 21.5, "name": "hot"}}]: object 0 is
    the context, object 1 the nested mapping. *)
Definition sensor_heap : heap :=
  {[ 0%nat := {[ "sensor" := VRef 1 ]};
     1%nat := {[ "temp" := VNum 21.5; "name" := VStr "hot" ]} ]}.

(** A float of a string of decimal digits. *)
Definition digit_value (c : ascii) : float :=
  match (nat_of_ascii c - 48)%nat with
  | 0 => 0 | 1 => 1 | 2 => 2 | 3 => 3 | 4 => 4
  | 5 => 5 | 6 => 6 | 7 => 7 | 8 => 8 | _ => 9
  end%float.

Definition sample_float (s : string) : res float :=
  if negb (String.eqb s "")
     && forallb (fun c => between 48 57 (nat_of_ascii c)) (list_ascii_of_string s)
  then Ok (fold_left (fun acc c => (acc * 10 + digit_value c)%float)
             (list_ascii_of_string s) 0%float)
  else Raise ValueError.

(** An environment with the three built-in functions, numbers written as
    digits and digit groups, and no clock or duration literal. *)
Definition sample_env : Env := {|
  FUNCTION_KW := fun w => existsb (String.eqb w) ["min"; "max"; "lookup"];
  CLOCK_REGEX := fun _ => false;
  FLOAT_REGEX := fun w =>
    match sample_float (join (split "_" w)) with Ok _ => true | _ => false end;
  DURATION_REGEX := fun _ => false;
  _parse_24h_clock := fun _ => Raise ValueError;
  _parse_duration := fun _ => Raise ValueError;
  normalize_time := fun w => Ok (VStr w);
  float_of_str := sample_float
|}.

(** The symbols of the script ['abc]: the quote and the word.  The scan
    reads no field but the text; the word is given the type of an
    identifier. *)
Definition quote_symbol : Symbol := mkSymbol "'" Punctuation 0 0 0.
Definition abc_symbol : Symbol := mkSymbol "abc" Name 1 0 1.

(* ===================================================================== *)
(** ** Definitions for the further properties *)
(* ===================================================================== *)

(** The three character classes of the lexer, in the order it tests
    them. *)
Definition is_word_char (c : ascii) : bool :=
  isalpha c || isdigit c || char_in c WORD_CHAR.

Definition is_special (c : ascii) : bool :=
  char_in c MATH_KW || char_in c PUNCTUATION || char_in c LINE_BREAK.

Definition is_white (c : ascii) : bool := char_in c WHITE_SPACE.

(** A character of no class: the lexer raises on it. *)
Definition illegal (c : ascii) : bool :=
  negb (is_word_char c || is_special c || is_white c).

(** The characters of a script with every space and tab written twice. *)
Definition doubled (chars : list ascii) : list ascii :=
  flat_map (fun c => if is_white c then [c; c] else [c]) chars.

(** A token as the lexer cuts it: not empty, and a special character is a
    token of its own. *)
Definition well_cut (token : string) : Prop :=
  token <> "" /\
  forall c, In c (list_ascii_of_string token) -> is_special c = true ->
            token = String c "".

(** A word that no test of [_parse_node] recognises. *)
Definition unknown_word `{Env} (word : string) : bool :=
  negb (FUNCTION_KW word) && negb (str_in word PUNCTUATION)
  && negb (str_in word MATH_KW) && negb (CLOCK_REGEX word)
  && negb (FLOAT_REGEX word) && negb (DURATION_REGEX word)
  && negb (existsb (String.eqb word) VAR_KW).

(** A word with its underscores left out. *)
Definition without_underscores (word : string) : string :=
  string_of_list_ascii
    (List.filter (fun c => negb (Ascii.eqb c "_")) (list_ascii_of_string word)).

(** [extends p p']: the node parser [p'] returns what [p] returns, whenever
    [p] has fuel enough to return. *)
Definition extends (p p' : list string -> nat -> res (node * nat)) : Prop :=
  forall word_list i r, p word_list i = r -> r <> OutOfFuel -> p' word_list i = r.

(** The nodes of [op1 v1 op2 v2 ...]: each operator with the literal after
    it. *)
Definition chain (steps : list (string * pyval)) : list node :=
  flat_map (fun step => [Arithmatic (fst step); Var (snd step)]) steps.

(** The operators applied one after the other, from the left, each to the
    result so far and its own literal. *)
Fixpoint fold_chain (acc : pyval) (steps : list (string * pyval)) : res pyval :=
  match steps with
  | [] => Ok acc
  | step :: steps' =>
      (let? r := apply_arithmatic (fst step) acc (snd step) in
       fold_chain r steps')%res
  end.

Definition is_num (v : pyval) : bool :=
  match v with VNum _ => true | _ => false end.

Definition is_str (v : pyval) : bool :=
  match v with VStr _ => true | _ => false end.

(** Arguments that [<] can compare: all floats, or all strings. *)
Definition comparable (args : list pyval) : bool :=
  forallb is_num args || forallb is_str args.

(** [evaluate_script].  Its second statement calls [_parse_program], a
    name that [fython_runner.py] neither defines nor imports (it imports
    [decompose_script] only): the look-up raises [NameError] before
    [timezone] is read, and the third statement is never reached. *)
Definition evaluate_script (fuel : nat) (script : string) (timezone : pyval)
    (global_var : pyval) : M pyval :=
  (let* word_list := lift (decompose_script script) in
   let* program := raise (NameError "_parse_program") in
   _evaluate_program fuel program global_var)%M.

(* ===================================================================== *)
(** * Properties *)
(* ===================================================================== *)

(** ** Lexer *)

(** C2: on the script of one space, which the lexer accepts, the tokens are
    two one-space tokens and their concatenation is not the script: the
    white-space branch appends its token and leaves the token in
    [word_buffer], and the flush after the loop appends it again. *)
Theorem decompose_space_not_round_trip :
  lexable " " = true /\
  decompose_script " " = Ok [" "; " "] /\
  token_texts [" "; " "] <> " ".
Proof.
  split; [reflexivity|]. split; [vm_compute; reflexivity|].
  vm_compute. discriminate.
Qed.

(** C3: on two spaces followed by a tab the lexer returns four tokens, each
    white-space run twice: the run left in [word_buffer] by the white-space
    branch is flushed once more by the next branch, and the last one by the
    flush after the loop. *)
Theorem decompose_two_spaces_tab :
  decompose_script (String " " (String " " (String tab ""))) =
  Ok ["  "; "  "; String tab ""; String tab ""].
Proof. vm_compute. reflexivity. Qed.

(** A word between two one-character tokens is lexed once: the duplicate
    comes from white space only. *)
Example decompose_min_call :
  decompose_script "min(1,2)+3" = Ok ["min"; "("; "1"; ","; "2"; ")"; "+"; "3"].
Proof. vm_compute. reflexivity. Qed.

(** A white-space run that a word follows is also glued to that word. *)
Example decompose_a_space_b :
  decompose_script "a b" = Ok ["a"; " "; " b"].
Proof. vm_compute. reflexivity. Qed.

(** Without white space the lexer is faithful. *)

Lemma get_lookup (s : string) :
  forall i, String.get i s = list_ascii_of_string s !! i.
Proof.
  induction s as [|c s IH]; intros [|i]; simpl; try reflexivity. apply IH.
Qed.

Lemma length_list_ascii (s : string) :
  length (list_ascii_of_string s) = String.length s.
Proof. induction s as [|c s IH]; simpl; [reflexivity | now rewrite IH]. Qed.

Lemma list_ascii_of_app (s t : string) :
  list_ascii_of_string (s +:+ t) = list_ascii_of_string s ++ list_ascii_of_string t.
Proof. induction s as [|c s IH]; simpl; [reflexivity | now rewrite IH]. Qed.

(** The characters of a token list. *)
Lemma list_ascii_of_join (word_list : list string) :
  list_ascii_of_string (join word_list)
  = concat (map list_ascii_of_string word_list).
Proof.
  unfold join. induction word_list as [|w [|w' l] IH].
  - reflexivity.
  - simpl. now rewrite app_nil_r.
  - change (String.concat "" (w :: w' :: l))
      with (w +:+ "" +:+ String.concat "" (w' :: l)).
    rewrite list_ascii_of_app.
    change ("" +:+ String.concat "" (w' :: l)) with (String.concat "" (w' :: l)).
    rewrite IH. reflexivity.
Qed.

Lemma list_ascii_of_join_snoc (word_list : list string) (w : string) :
  list_ascii_of_string (join (word_list ++ [w]))
  = list_ascii_of_string (join word_list) ++ list_ascii_of_string w.
Proof.
  rewrite !list_ascii_of_join, map_app, concat_app. simpl.
  now rewrite app_nil_r.
Qed.

Lemma decompose_loop_no_space (script : string) :
  forallb word_or_special (list_ascii_of_string script) = true ->
  forall n char_idx word_list word_buffer,
    String.length script <= n + char_idx ->
    list_ascii_of_string (join word_list) ++ word_buffer
    = take char_idx (list_ascii_of_string script) ->
    exists word_list' word_buffer',
      decompose_loop n script char_idx word_list word_buffer
      = Ok (word_list', word_buffer')
      /\ list_ascii_of_string (join word_list') ++ word_buffer'
         = list_ascii_of_string script.
Proof.
  intros Hclass.
  induction n as [|n IH]; intros char_idx word_list word_buffer Hlen Hinv.
  - simpl. rewrite get_lookup.
    rewrite lookup_ge_None_2 by (rewrite length_list_ascii; lia).
    eexists _, _. split; [reflexivity|].
    rewrite Hinv. apply take_ge. rewrite length_list_ascii. lia.
  - simpl. rewrite get_lookup.
    destruct (list_ascii_of_string script !! char_idx) as [char|] eqn:Hchar.
    2:{ eexists _, _. split; [reflexivity|].
        rewrite Hinv. apply take_ge. now apply lookup_ge_None. }
    assert (Hc : word_or_special char = true).
    { rewrite forallb_forall in Hclass. apply Hclass.
      apply list_elem_of_In. eapply list_elem_of_lookup_2. exact Hchar. }
    assert (Hnext : forall wl wb,
      list_ascii_of_string (join wl) ++ wb
      = (list_ascii_of_string (join word_list) ++ word_buffer) ++ [char] ->
      list_ascii_of_string (join wl) ++ wb
      = take (char_idx + 1) (list_ascii_of_string script)).
    { intros wl wb ->. rewrite Hinv. replace (char_idx + 1) with (S char_idx) by lia.
      symmetry. now apply take_S_r. }
    unfold word_or_special in Hc.
    destruct (isalpha char || isdigit char || char_in char WORD_CHAR) eqn:Hword.
    + apply IH; [lia|]. apply Hnext. now rewrite app_assoc.
    + simpl in Hc. rewrite Hc.
      apply IH; [lia|]. apply Hnext.
      destruct word_buffer as [|b word_buffer]; cbn [Nat.ltb Nat.leb length].
      * rewrite list_ascii_of_join_snoc. simpl. now rewrite !app_nil_r.
      * rewrite !list_ascii_of_join_snoc. unfold flush.
        rewrite list_ascii_of_string_of_list_ascii. simpl.
        now rewrite !app_nil_r.
Qed.

(** Round trip without white space: on every script of word characters and
    one-character tokens, the concatenation of the tokens is the script. *)
Theorem decompose_round_trip_no_space (script : string) :
  forallb word_or_special (list_ascii_of_string script) = true ->
  exists word_list,
    decompose_script script = Ok word_list /\ token_texts word_list = script.
Proof.
  intros Hclass. unfold decompose_script.
  destruct (decompose_loop_no_space script Hclass (String.length script) 0 [] [])
    as [wl [wb [Hloop Hchars]]]; [lia | reflexivity |].
  rewrite Hloop. simpl. eexists. split; [reflexivity|].
  unfold token_texts.
  rewrite <- (string_of_list_ascii_of_string script), <- Hchars.
  destruct wb as [|b wb]; cbn [Nat.ltb Nat.leb length].
  - now rewrite app_nil_r, string_of_list_ascii_of_string.
  - rewrite <- (string_of_list_ascii_of_string (join (wl ++ [flush (b :: wb)]))).
    rewrite list_ascii_of_join_snoc. unfold flush.
    now rewrite list_ascii_of_string_of_list_ascii.
Qed.

Lemma aggregate_advances n script char :
  forall char_idx word_buffer,
    char_idx <= fst (aggregate n script char char_idx word_buffer).
Proof.
  induction n as [|n IH]; intros char_idx word_buffer; simpl; [lia|].
  destruct (String.get (char_idx + 1) script) as [c|]; simpl; [|lia].
  destruct (Ascii.eqb c char); simpl; [|lia].
  specialize (IH (char_idx + 1) (word_buffer ++ [c])). lia.
Qed.

(** The lexer does not run out of rounds: every round advances
    [char_idx]. *)
Lemma decompose_loop_fuel (script : string) :
  forall n char_idx word_list word_buffer,
    String.length script <= n + char_idx ->
    decompose_loop n script char_idx word_list word_buffer <> OutOfFuel.
Proof.
  induction n as [|n IH]; intros char_idx word_list word_buffer Hlen; simpl.
  - rewrite get_lookup.
    rewrite lookup_ge_None_2 by (rewrite length_list_ascii; lia). discriminate.
  - destruct (String.get char_idx script) as [char|]; [|discriminate].
    destruct (isalpha char || isdigit char || char_in char WORD_CHAR).
    { apply IH. lia. }
    destruct (char_in char MATH_KW || char_in char PUNCTUATION
              || char_in char LINE_BREAK).
    { apply IH. lia. }
    destruct (char_in char WHITE_SPACE); [|discriminate].
    pose proof (aggregate_advances (String.length script) script char
                  char_idx [char]) as Hadv.
    destruct (aggregate (String.length script) script char char_idx [char])
      as [char_idx' word_buffer'].
    simpl in Hadv. apply IH. lia.
Qed.

Lemma decompose_script_fuel (script : string) :
  decompose_script script <> OutOfFuel.
Proof.
  unfold decompose_script.
  pose proof (decompose_loop_fuel script (String.length script) 0 [] []) as H.
  destruct (decompose_loop (String.length script) script 0 [] [])
    as [[wl wb] | e |]; simpl; [discriminate | discriminate |].
  exfalso. apply H; [lia | reflexivity].
Qed.

(** ** Classifier *)

(** C8: the word [abc] is no special character and no keyword, its only
    segment is alphanumeric and it starts with a letter; the classifier
    reaches the [Name] branch, whose [return Symbol.Name] raises
    [AttributeError] instead of returning [SymbolType.Name]. *)
Theorem classify_abc_raises (E : Env) (pos_index : nat) :
  String.length "abc" <> 1 /\
  existsb (String.eqb "abc") VAR_KW = false /\
  forallb str_isalnum (split "_" "abc") = true /\
  (isdigit <$> String.get 0 "abc") = Some false /\
  is_identifier "abc" = Ok true /\
  classify_word "abc" pos_index = Raise AttributeError.
Proof. repeat split; try reflexivity. simpl. lia. Qed.

(** X6: the classifier returns [SymbolType.Name] or [SymbolType.Value] on
    no word at all: the two branches that would return them raise
    [AttributeError]. *)
Lemma classify_word_never_Name (E : Env) (word : string) (pos_index : nat) :
  classify_word word pos_index <> Ok Name /\
  classify_word word pos_index <> Ok Value.
Proof.
  unfold classify_word, Symbol_Name, Symbol_Value.
  repeat match goal with
         | |- context [if ?b then _ else _] => destruct b
         | |- context [res_bind ?r _] => destruct r; simpl
         | |- context [match float_of_str ?w with _ => _ end] =>
             destruct (float_of_str w) as [?|[]|]
         end; split; congruence.
Qed.

(** Every word of the shape the [Name] rule describes, and every other word
    the identifier test accepts, raises [AttributeError]. *)
Lemma classify_word_identifier (E : Env) (word : string) (pos_index : nat) :
  (String.length word =? 1)%nat = false ->
  existsb (String.eqb word) VAR_KW = false ->
  is_identifier word = Ok true ->
  classify_word word pos_index = Raise AttributeError.
Proof.
  intros Hlen Hkw Hid. unfold classify_word.
  rewrite Hlen, Hkw, Hid. reflexivity.
Qed.

(** ** Quote scanning *)

(** The scan raises as soon as it has a symbol to read. *)
Lemma extract_quote_loop_raises n symbol_list initiating_symbol symbol_index
    symbol quote_value_list :
  extract_quote_loop n symbol_list initiating_symbol symbol_index symbol
    quote_value_list = Raise AttributeError.
Proof. destruct n; reflexivity. Qed.

(** C7, as the code has it: the scan never raises a syntax error.  It has
    no test for the end of the symbols: started past the last symbol it
    raises [IndexError], and started on a symbol it raises [AttributeError],
    whether a closing quote follows or not. *)
Theorem extract_quote_unterminated (symbol_index : nat)
    (symbol_list : list Symbol) (initiating_symbol : Symbol) :
  extract_quote symbol_index symbol_list initiating_symbol
  = Raise (if (symbol_index <? length symbol_list)%nat
           then AttributeError else IndexError)
  /\ exists e,
       extract_quote symbol_index symbol_list initiating_symbol = Raise e
       /\ is_syntax_error e = false.
Proof.
  assert (H : extract_quote symbol_index symbol_list initiating_symbol
              = Raise (if (symbol_index <? length symbol_list)%nat
                       then AttributeError else IndexError)).
  { unfold extract_quote.
    destruct (Nat.ltb_spec symbol_index (length symbol_list)) as [Hlt | Hge].
    - destruct (lookup_lt_is_Some_2 _ _ Hlt) as [symbol ->].
      apply extract_quote_loop_raises.
    - now rewrite (lookup_ge_None_2 _ _ Hge). }
  split; [exact H|].
  eexists. split; [exact H|]. now destruct (_ <? _)%nat.
Qed.

(** C7, as stated, fails on the script of one quote and on the script
    ['abc]: the scan after the opening quote raises [IndexError] on the
    first and [AttributeError] on the second, and neither is a syntax error
    of the package. *)
Lemma extract_quote_abc_not_syntax_error :
  decompose_script "'" = Ok ["'"]
  /\ decompose_script "'abc" = Ok ["'"; "abc"]
  /\ map word [quote_symbol; abc_symbol] = ["'"; "abc"]
  /\ extract_quote 1 [quote_symbol] quote_symbol = Raise IndexError
  /\ extract_quote 1 [quote_symbol; abc_symbol] quote_symbol
     = Raise AttributeError
  /\ is_syntax_error IndexError = false
  /\ is_syntax_error AttributeError = false.
Proof. repeat split; vm_compute; reflexivity. Qed.

(** A closed quote is not scanned to its end either. *)
Example extract_quote_closed :
  extract_quote 1
    [quote_symbol; abc_symbol; mkSymbol " " Whitespace_separator 4 0 4;
     quote_symbol] quote_symbol
  = Raise AttributeError.
Proof. reflexivity. Qed.

(** ** Evaluator: the heap is only read *)

Create HintDb frame.

Lemma preserves_ret {A} (a : A) : preserves_heap (ret a).
Proof. intros h. reflexivity. Qed.

Lemma preserves_raise {A} (e : exn) : preserves_heap (@raise A e).
Proof. intros h. reflexivity. Qed.

Lemma preserves_out_of_fuel {A} : preserves_heap (@out_of_fuel A).
Proof. intros h. reflexivity. Qed.

Lemma preserves_lift {A} (r : res A) : preserves_heap (lift r).
Proof. intros h. reflexivity. Qed.

Lemma preserves_deref (l : nat) : preserves_heap (deref l).
Proof. intros h. reflexivity. Qed.

Lemma preserves_bind {A B} (m : M A) (k : A -> M B) :
  preserves_heap m -> (forall a, preserves_heap (k a)) ->
  preserves_heap (bind m k).
Proof.
  intros Hm Hk h. unfold bind. specialize (Hm h).
  destruct (m h) as [[a | e |] h']; simpl in Hm; subst h'.
  - apply Hk.
  - reflexivity.
  - reflexivity.
Qed.

#[local] Hint Resolve preserves_ret preserves_raise preserves_out_of_fuel
  preserves_lift preserves_deref : frame.

(** One step of a frame proof: split a [bind], or open the value a branch
    scrutinises. *)
Ltac frame_step :=
  match goal with
  | |- preserves_heap (bind _ _) => apply preserves_bind; [|intros ?]
  | |- preserves_heap (match ?x with _ => _ end) => destruct x
  | |- preserves_heap (if ?b then _ else _) => destruct b
  | |- preserves_heap _ => solve [auto with frame]
  end.

Lemma preserves_py_contains path lookup_step :
  preserves_heap (py_contains path lookup_step).
Proof. unfold py_contains. repeat frame_step. Qed.

Lemma preserves_py_getitem lookup_step path :
  preserves_heap (py_getitem lookup_step path).
Proof. unfold py_getitem. repeat frame_step. Qed.

#[local] Hint Resolve preserves_py_contains preserves_py_getitem : frame.

Lemma preserves_lookup_walk lookup_path :
  forall lookup_step, preserves_heap (lookup_walk lookup_path lookup_step).
Proof.
  induction lookup_path as [|path rest IH]; intros lookup_step; simpl.
  - auto with frame.
  - repeat frame_step.
Qed.

#[local] Hint Resolve preserves_lookup_walk : frame.

Lemma preserves_run_func func_name args global_var :
  preserves_heap (_run_func func_name args global_var).
Proof. unfold _run_func. repeat frame_step. Qed.

#[local] Hint Resolve preserves_run_func : frame.

Lemma preserves_for_each {A B} (f : A -> M B) (l : list A) :
  (forall x, preserves_heap (f x)) -> preserves_heap (for_each f l).
Proof.
  intros Hf. induction l as [|x l IH]; simpl.
  - auto with frame.
  - repeat frame_step; auto with frame.
Qed.

Lemma preserves_final_check exec_stack : preserves_heap (final_check exec_stack).
Proof. unfold final_check. repeat frame_step. Qed.

Lemma preserves_exec_loop evaluate n prog global_var :
  (forall p g, preserves_heap (evaluate p g)) ->
  forall prog_idx exec_stack,
    preserves_heap (exec_loop evaluate n prog global_var prog_idx exec_stack).
Proof.
  intros Hev. induction n as [|n IH]; intros prog_idx exec_stack; simpl.
  - repeat frame_step.
  - destruct (prog !! prog_idx) as [instr|]; [|auto with frame].
    destruct instr as [v | op | func args | w].
    + apply IH.
    + destruct (prog !! (prog_idx + 1)) as [next_node|]; [|auto with frame].
      apply preserves_bind.
      { destruct next_node; auto with frame. }
      intros var2. apply preserves_bind; [auto with frame|].
      intros [var1 st]. apply preserves_bind; [auto with frame|].
      intros r. apply IH.
    + apply preserves_bind.
      { apply preserves_for_each. intros arg. apply Hev. }
      intros vs. apply preserves_bind; [auto with frame|].
      intros r. apply IH.
    + auto with frame.
Qed.

Lemma preserves_evaluate_program fuel :
  forall prog global_var, preserves_heap (_evaluate_program fuel prog global_var).
Proof.
  induction fuel as [|fuel IH]; intros prog global_var; simpl.
  - auto with frame.
  - apply preserves_bind.
    + apply preserves_exec_loop. exact IH.
    + intros st. apply preserves_final_check.
Qed.

(** C9: whatever the program, the context and the outcome (a value, an
    exception, or the fuel running out), [_evaluate_program] and
    [_run_func] return the heap they were given: the context mapping and
    every other object are unchanged. *)
Theorem evaluate_program_frame (fuel : nat) (prog : list node)
    (func_name : string) (args : list pyval) (global_var : pyval) (h : heap) :
  snd (_evaluate_program fuel prog global_var h) = h /\
  snd (_run_func func_name args global_var h) = h.
Proof.
  split.
  - apply preserves_evaluate_program.
  - apply preserves_run_func.
Qed.

(** ** Evaluator: the arithmetic rule and the final stack check *)

Lemma pop_snoc (exec_stack : list pyval) (v : pyval) :
  pop (exec_stack ++ [v]) = Ok (v, exec_stack).
Proof. unfold pop. rewrite rev_app_distr. simpl. rewrite rev_involutive. reflexivity. Qed.

(** An arithmetic node before a literal: the left operand is the value
    pushed last, the right operand is the literal, and the cursor moves
    past both nodes. *)
Lemma exec_loop_arithmatic_var evaluate n prog global_var prog_idx
    exec_stack op var1 var2 r h :
  prog !! prog_idx = Some (Arithmatic op) ->
  prog !! (prog_idx + 1) = Some (Var var2) ->
  apply_arithmatic op var1 var2 = Ok r ->
  exec_loop evaluate (S n) prog global_var prog_idx (exec_stack ++ [var1]) h
  = exec_loop evaluate n prog global_var (prog_idx + 2) (exec_stack ++ [r]) h.
Proof.
  intros Hinstr Hnext Hop. simpl. rewrite Hinstr, Hnext.
  unfold bind, ret, lift. rewrite pop_snoc, Hop. reflexivity.
Qed.

(** An arithmetic node before a function call: the call is evaluated first,
    as a program of its own, and its value is the right operand. *)
Lemma exec_loop_arithmatic_func evaluate n prog global_var prog_idx
    exec_stack op var1 var2 r func args h h' :
  prog !! prog_idx = Some (Arithmatic op) ->
  prog !! (prog_idx + 1) = Some (Func func args) ->
  evaluate [Func func args] VNone h = (Ok var2, h') ->
  apply_arithmatic op var1 var2 = Ok r ->
  exec_loop evaluate (S n) prog global_var prog_idx (exec_stack ++ [var1]) h
  = exec_loop evaluate n prog global_var (prog_idx + 2) (exec_stack ++ [r]) h'.
Proof.
  intros Hinstr Hnext Hcall Hop. simpl. rewrite Hinstr, Hnext.
  unfold bind, lift. rewrite Hcall, pop_snoc, Hop. reflexivity.
Qed.

(** On the two instruction sequences themselves, typed in by hand, the
    evaluator gives 0 and 4, whatever the context. *)
Lemma evaluate_instruction_sequences (fuel : nat) (global_var : pyval) (h : heap) :
  _evaluate_program (S fuel) prog_2_minus_1_minus_1 global_var h
  = (Ok (VNum 0), h)
  /\ _evaluate_program (S (S fuel)) prog_min_1_2_plus_3 global_var h
     = (Ok (VNum 4), h).
Proof. split; reflexivity. Qed.

(** C1: the scripts [2 - 1 - 1] and [min(1,2) + 3] are not evaluated to 0
    and 4: [evaluate_script] lexes them and then raises [NameError] on
    [_parse_program], whatever the time zone and the context.  The words
    the lexer returns hold every space twice, one of them glued to the
    number after it; and on the white-space word at position 1 the node
    parser of the file returns a string literal and leaves the cursor where
    it was. *)
Theorem evaluate_script_arithmetic (fuel : nat) (timezone global_var : pyval)
    (h : heap) :
  evaluate_script fuel "2 - 1 - 1" timezone global_var h
  = (Raise (NameError "_parse_program"), h)
  /\ evaluate_script fuel "min(1,2) + 3" timezone global_var h
     = (Raise (NameError "_parse_program"), h)
  /\ decompose_script "2 - 1 - 1"
     = Ok ["2"; " "; " "; "-"; " "; " 1"; " "; " "; "-"; " "; " 1"]
  /\ decompose_script "min(1,2) + 3"
     = Ok ["min"; "("; "1"; ","; "2"; ")"; " "; " "; "+"; " "; " 3"]
  /\ @_parse_node sample_env 1
       ["2"; " "; " "; "-"; " "; " 1"; " "; " "; "-"; " "; " 1"] 1
     = Ok (Var (VStr " "), 1).
Proof.
  assert (H1 : decompose_script "2 - 1 - 1"
               = Ok ["2"; " "; " "; "-"; " "; " 1"; " "; " "; "-"; " "; " 1"])
    by (vm_compute; reflexivity).
  assert (H2 : decompose_script "min(1,2) + 3"
               = Ok ["min"; "("; "1"; ","; "2"; ")"; " "; " "; "+"; " "; " 3"])
    by (vm_compute; reflexivity).
  split; [|split; [|split; [exact H1 | split; [exact H2|]]]].
  - unfold evaluate_script, bind, lift, raise. now rewrite H1.
  - unfold evaluate_script, bind, lift, raise. now rewrite H2.
  - vm_compute. reflexivity.
Qed.

(** C4: when the loop ends with a stack that does not hold exactly one
    value, the evaluator does not raise a runtime error of the package: the
    [raise] of line 51 names [RuntimeException], which is bound nowhere, and
    the statement raises [NameError]; when the loop ends with one value the
    evaluator returns it.  Two literals side by side leave two values and
    raise [NameError]. *)
Theorem evaluate_stack_check :
  (forall fuel prog global_var h exec_stack h',
     exec_loop (_evaluate_program fuel) (length prog) prog global_var 0 [] h
     = (Ok exec_stack, h') ->
     (length exec_stack <> 1 ->
      _evaluate_program (S fuel) prog global_var h
      = (Raise (NameError "RuntimeException"), h'))
     /\ (forall v, exec_stack = [v] ->
         _evaluate_program (S fuel) prog global_var h = (Ok v, h')))
  /\ (forall fuel a b global_var h,
     _evaluate_program (S fuel) [Var a; Var b] global_var h
     = (Raise (NameError "RuntimeException"), h))
  /\ is_runtime_error (NameError "RuntimeException") = false.
Proof.
  split; [|split; [|reflexivity]].
  - intros fuel prog global_var h exec_stack h' Hloop. split.
    + intros Hlen. simpl. unfold bind. rewrite Hloop. unfold final_check.
      destruct (Nat.eqb_spec (length exec_stack) 1) as [E|E]; [contradiction|].
      reflexivity.
    + intros v ->. simpl. unfold bind at 1. rewrite Hloop. reflexivity.
  - intros fuel a b global_var h. reflexivity.
Qed.

Lemma evaluate_stack_check_witness :
  _evaluate_program 1 [] VNone ∅ = (Raise (NameError "RuntimeException"), ∅)
  /\ _evaluate_program 1 [Var (VStr "a")] VNone ∅ = (Ok (VStr "a"), ∅).
Proof.
  split.
  - apply (proj1 (proj1 evaluate_stack_check 0 [] VNone ∅ [] ∅ eq_refl)).
    simpl. lia.
  - apply (proj2 (proj1 evaluate_stack_check 0 [Var (VStr "a")] VNone ∅
                    [VStr "a"] ∅ eq_refl)).
    reflexivity.
Defined.

(** ** Evaluator: the fuel is enough *)

Lemma has_fuel_ret {A} (a : A) : has_fuel (ret a).
Proof. intros h. discriminate. Qed.

Lemma has_fuel_raise {A} (e : exn) : has_fuel (@raise A e).
Proof. intros h. discriminate. Qed.

Lemma has_fuel_bind {A B} (m : M A) (k : A -> M B) :
  has_fuel m -> (forall a, has_fuel (k a)) -> has_fuel (bind m k).
Proof.
  intros Hm Hk h. unfold bind. specialize (Hm h).
  destruct (m h) as [[a | e |] h']; simpl in Hm.
  - apply Hk.
  - discriminate.
  - contradiction.
Qed.

Lemma has_fuel_lift {A} (r : res A) : r <> OutOfFuel -> has_fuel (lift r).
Proof. intros Hr h. exact Hr. Qed.

Lemma has_fuel_deref (l : nat) : has_fuel (deref l).
Proof. intros h. discriminate. Qed.

(** One step of a fuel proof, as [frame_step]. *)
Ltac fuel_step :=
  match goal with
  | |- has_fuel (bind _ _) => apply has_fuel_bind; [|intros ?]
  | |- has_fuel (ret _) => apply has_fuel_ret
  | |- has_fuel (raise _) => apply has_fuel_raise
  | |- has_fuel (deref _) => apply has_fuel_deref
  | |- has_fuel (match ?x with _ => _ end) => destruct x
  | |- has_fuel (if ?b then _ else _) => destruct b
  | |- has_fuel _ => solve [auto]
  end.

Lemma has_fuel_py_contains path lookup_step :
  has_fuel (py_contains path lookup_step).
Proof. unfold py_contains. repeat fuel_step. Qed.

Lemma has_fuel_py_getitem lookup_step path :
  has_fuel (py_getitem lookup_step path).
Proof. unfold py_getitem. repeat fuel_step. Qed.

Lemma has_fuel_lookup_walk lookup_path :
  forall lookup_step, has_fuel (lookup_walk lookup_path lookup_step).
Proof.
  induction lookup_path as [|path rest IH]; intros lookup_step; simpl.
  - apply has_fuel_ret.
  - apply has_fuel_bind; [apply has_fuel_py_contains|]. intros present.
    destruct (negb present); [apply has_fuel_ret|].
    apply has_fuel_bind; [apply has_fuel_py_getitem|]. intros v. apply IH.
Qed.

Lemma min_from_fuel rest : forall best, min_from best rest <> OutOfFuel.
Proof.
  induction rest as [|item rest IH]; intros best; simpl; [discriminate|].
  destruct (py_lt item best) as [b | e |] eqn:Hlt; simpl;
    [apply IH | discriminate |].
  destruct item, best; discriminate.
Qed.

Lemma max_from_fuel rest : forall best, max_from best rest <> OutOfFuel.
Proof.
  induction rest as [|item rest IH]; intros best; simpl; [discriminate|].
  destruct (py_lt best item) as [b | e |] eqn:Hlt; simpl;
    [apply IH | discriminate |].
  destruct item, best; discriminate.
Qed.

Lemma has_fuel_run_func func_name args global_var :
  has_fuel (_run_func func_name args global_var).
Proof.
  unfold _run_func.
  destruct (String.eqb func_name "min").
  { apply has_fuel_lift. destruct args; [discriminate | apply min_from_fuel]. }
  destruct (String.eqb func_name "max").
  { apply has_fuel_lift. destruct args; [discriminate | apply max_from_fuel]. }
  destruct (String.eqb func_name "lookup"); [|apply has_fuel_raise].
  destruct (1 <? length args)%nat; [apply has_fuel_raise|].
  destruct args as [|[| x | s | l] args];
    try apply has_fuel_raise. apply has_fuel_lookup_walk.
Qed.

Lemma has_fuel_for_each {A B} (f : A -> M B) (l : list A) :
  Forall (fun x => has_fuel (f x)) l -> has_fuel (for_each f l).
Proof.
  induction 1 as [|x l Hx _ IH]; simpl.
  - apply has_fuel_ret.
  - apply has_fuel_bind; [exact Hx|]. intros y.
    apply has_fuel_bind; [exact IH|]. intros ys. apply has_fuel_ret.
Qed.

Lemma apply_arithmatic_fuel op var1 var2 : apply_arithmatic op var1 var2 <> OutOfFuel.
Proof.
  unfold apply_arithmatic, py_add, py_sub, py_truediv, py_mul.
  repeat match goal with
         | |- context [if ?b then _ else _] => destruct b
         | |- context [match ?v with _ => _ end] => destruct v
         end; discriminate.
Qed.

Lemma pop_fuel exec_stack : pop exec_stack <> OutOfFuel.
Proof. unfold pop. destruct (rev exec_stack); discriminate. Qed.

Lemma has_fuel_final_check exec_stack : has_fuel (final_check exec_stack).
Proof.
  unfold final_check. destruct (negb _); [apply has_fuel_raise|].
  apply has_fuel_bind; [apply has_fuel_lift, pop_fuel|].
  intros [v st]. apply has_fuel_ret.
Qed.

Lemma list_max_lookup {A} (f : A -> nat) (l : list A) :
  forall i x, l !! i = Some x -> f x <= list_max (map f l).
Proof.
  induction l as [|y l IH]; intros i x Hx; [discriminate|].
  destruct i as [|i]; simpl in *.
  - injection Hx as ->. lia.
  - specialize (IH i x Hx). lia.
Qed.

Lemma list_max_Forall {A} (f : A -> nat) (l : list A) :
  Forall (fun x => f x <= list_max (map f l)) l.
Proof.
  apply Forall_lookup. intros i x Hx. eapply list_max_lookup. exact Hx.
Qed.

(** The loop of one call does not run out of rounds: when the nested calls
    have fuel, so has the loop started with [len(prog) - prog_idx] rounds
    or more. *)
Lemma has_fuel_exec_loop evaluate depth prog global_var :
  (forall p g, prog_depth p < depth -> has_fuel (evaluate p g)) ->
  (forall func args g,
     node_depth (Func func args) <= depth -> has_fuel (evaluate [Func func args] g)) ->
  prog_depth prog <= depth ->
  forall n prog_idx exec_stack,
    length prog <= n + prog_idx ->
    has_fuel (exec_loop evaluate n prog global_var prog_idx exec_stack).
Proof.
  intros Hprog Hnode Hdepth.
  induction n as [|n IH]; intros prog_idx exec_stack Hlen; simpl.
  - destruct (prog !! prog_idx) as [instr|] eqn:Hinstr; [|apply has_fuel_ret].
    apply lookup_lt_Some in Hinstr. lia.
  - destruct (prog !! prog_idx) as [instr|] eqn:Hinstr; [|apply has_fuel_ret].
    destruct instr as [v | op | func args | w].
    + apply IH. lia.
    + destruct (prog !! (prog_idx + 1)) as [next_node|] eqn:Hnext;
        [|apply has_fuel_raise].
      apply has_fuel_bind.
      { destruct next_node as [v | op' | func args | w];
          try apply has_fuel_ret; try apply has_fuel_raise.
        apply Hnode.
        pose proof (list_max_lookup node_depth prog _ _ Hnext) as Hle.
        unfold prog_depth in Hdepth. lia. }
      intros var2. apply has_fuel_bind; [apply has_fuel_lift, pop_fuel|].
      intros [var1 st].
      apply has_fuel_bind; [apply has_fuel_lift, apply_arithmatic_fuel|].
      intros r. apply IH. lia.
    + pose proof (list_max_lookup node_depth prog _ _ Hinstr) as Hle.
      unfold prog_depth in Hdepth. simpl in Hle.
      apply has_fuel_bind.
      { apply has_fuel_for_each.
        eapply Forall_impl; [apply (list_max_Forall (fun arg => list_max (map node_depth arg)))|].
        intros arg Harg. simpl in Harg. apply Hprog. unfold prog_depth. lia. }
      intros vs. apply has_fuel_bind; [apply has_fuel_run_func|].
      intros r. apply IH. lia.
    + apply has_fuel_raise.
Qed.

(** X15: the evaluator ends on every program: a fuel above the nesting
    depth of the program is enough for a value or an exception, for the
    program and for a call evaluated as an operand. *)
Theorem evaluate_program_total fuel :
  (forall prog global_var,
     prog_depth prog < fuel -> has_fuel (_evaluate_program fuel prog global_var))
  /\ (forall func args global_var,
     node_depth (Func func args) <= fuel ->
     has_fuel (_evaluate_program fuel [Func func args] global_var)).
Proof.
  induction fuel as [|fuel [IHprog IHnode]].
  - split.
    + intros prog global_var Hd. lia.
    + intros func args global_var Hd. simpl in Hd. lia.
  - split.
    + intros prog global_var Hd. simpl.
      apply has_fuel_bind; [|intros st; apply has_fuel_final_check].
      apply (has_fuel_exec_loop _ fuel); [exact IHprog | exact IHnode | lia | lia].
    + intros func args global_var Hd.
      change (_evaluate_program (S fuel) [Func func args] global_var)
        with (bind (exec_loop (_evaluate_program fuel) 1 [Func func args] global_var 0 [])
                final_check).
      apply has_fuel_bind; [|intros st; apply has_fuel_final_check].
      simpl exec_loop.
      apply has_fuel_bind.
      { apply has_fuel_for_each.
        eapply Forall_impl; [apply (list_max_Forall (fun arg => list_max (map node_depth arg)))|].
        intros arg Harg. simpl in Harg, Hd. apply IHprog. unfold prog_depth. lia. }
      intros vs. apply has_fuel_bind; [apply has_fuel_run_func|].
      intros r. apply has_fuel_ret.
Qed.

(** ** Evaluator: lookup *)

Lemma lookup_walk_through_mappings h lookup_path :
  forall lookup_step,
    through_mappings h lookup_path lookup_step = true ->
    lookup_walk lookup_path lookup_step h
    = (Ok (spec_lookup h lookup_path lookup_step), h).
Proof.
  induction lookup_path as [|path rest IH]; intros lookup_step Hmaps.
  - reflexivity.
  - destruct lookup_step as [| x | s | l]; simpl in Hmaps; try discriminate.
    simpl. unfold bind, deref, ret. simpl.
    destruct (h !! l) as [d|] eqn:Hl; [|discriminate]. simpl.
    destruct (d !! path) as [v|] eqn:Hpath; simpl.
    + rewrite Hl. simpl. rewrite Hpath. simpl. apply IH. exact Hmaps.
    + reflexivity.
Qed.

(** A prefix of the path that leads through mappings to a value [t] brings
    the walk to [t] with the rest of the path. *)
Lemma lookup_walk_resolves h lookup_step prefix t :
  resolves h lookup_step prefix t ->
  forall rest,
    lookup_walk (prefix ++ rest) lookup_step h = lookup_walk rest t h.
Proof.
  induction 1 as [v | l d seg v segments v' Hl Hseg _ IH]; intros rest.
  - reflexivity.
  - simpl. unfold bind, deref, ret. simpl. rewrite Hl. simpl.
    rewrite Hseg. simpl. rewrite Hl. simpl. rewrite Hseg. simpl. apply IH.
Qed.

(** C5, as the code has it: [lookup] fails unless it has exactly one
    argument, and fails on an argument that is no string; on a string, when
    every value reached while a segment remains is a mapping, the result is
    [None] if some segment is absent from the mapping reached and else the
    value at the last segment. *)
Theorem run_func_lookup_through_mappings :
  (forall args global_var h,
     length args <> 1 ->
     exists e, _run_func "lookup" args global_var h = (Raise e, h))
  /\ (forall a global_var h,
     (forall s, a <> VStr s) ->
     _run_func "lookup" [a] global_var h = (Raise AttributeError, h))
  /\ (forall path global_var h,
     through_mappings h (split "." path) global_var = true ->
     _run_func "lookup" [VStr path] global_var h
     = (Ok (spec_lookup h (split "." path) global_var), h)).
Proof.
  split; [|split].
  - intros args global_var h Hlen.
    destruct args as [|a [|b args]]; simpl in Hlen.
    + exists IndexError. reflexivity.
    + lia.
    + exists (NameError "RuntimeException"). reflexivity.
  - intros a global_var h Hns.
    destruct a as [| x | s | l]; try reflexivity.
    exfalso. apply (Hns s). reflexivity.
  - intros path global_var h Hmaps.
    change (_run_func "lookup" [VStr path] global_var h)
      with (lookup_walk (split "." path) global_var h).
    apply lookup_walk_through_mappings. exact Hmaps.
Qed.

Lemma run_func_lookup_through_mappings_witness :
  _run_func "lookup" [VStr "sensor.temp"] (VRef 0) sensor_heap
  = (Ok (VNum 21.5), sensor_heap)
  /\ _run_func "lookup" [VStr "sensor.humidity"] (VRef 0) sensor_heap
  = (Ok VNone, sensor_heap)
  /\ (exists e, _run_func "lookup" [] (VRef 0) sensor_heap = (Raise e, sensor_heap))
  /\ _run_func "lookup" [VNum 1] (VRef 0) sensor_heap
  = (Raise AttributeError, sensor_heap).
Proof.
  split; [|split; [|split]].
  - apply (proj2 (proj2 run_func_lookup_through_mappings)
             "sensor.temp" (VRef 0) sensor_heap).
    vm_compute. reflexivity.
  - apply (proj2 (proj2 run_func_lookup_through_mappings)
             "sensor.humidity" (VRef 0) sensor_heap).
    vm_compute. reflexivity.
  - apply (proj1 run_func_lookup_through_mappings [] (VRef 0) sensor_heap).
    simpl. lia.
  - apply (proj1 (proj2 run_func_lookup_through_mappings)
             (VNum 1) (VRef 0) sensor_heap).
    intros s. discriminate.
Defined.

(** C5, as stated, fails on the path [sensor.temp.unit]: the segment
    [unit] is absent, the specification's walk gives [None], and the code
    raises [TypeError] on the membership test against the float 21.5. *)
Lemma run_func_lookup_past_number_raises :
  spec_lookup sensor_heap (split "." "sensor.temp.unit") (VRef 0) = VNone
  /\ _run_func "lookup" [VStr "sensor.temp.unit"] (VRef 0) sensor_heap
     = (Raise TypeError, sensor_heap).
Proof. split; vm_compute; reflexivity. Qed.

(** C10, as the code has it: when a prefix of the path leads through
    mappings to a value [t] and a segment remains, the result is [None] if
    [t] is a mapping that lacks the segment or a string that does not
    contain it; it is [TypeError] if [t] is a float or [None] (raised by the
    membership test) or a string that contains the segment (raised by the
    subscript). *)
Theorem run_func_lookup_at_terminal path global_var h prefix seg rest t :
  split "." path = prefix ++ seg :: rest ->
  resolves h global_var prefix t ->
  (forall l d, t = VRef l -> h !! l = Some d -> d !! seg = None ->
     _run_func "lookup" [VStr path] global_var h = (Ok VNone, h))
  /\ (forall s, t = VStr s -> str_in seg s = false ->
     _run_func "lookup" [VStr path] global_var h = (Ok VNone, h))
  /\ (forall s, t = VStr s -> str_in seg s = true ->
     _run_func "lookup" [VStr path] global_var h = (Raise TypeError, h))
  /\ (forall x, t = VNum x ->
     _run_func "lookup" [VStr path] global_var h = (Raise TypeError, h))
  /\ (t = VNone ->
     _run_func "lookup" [VStr path] global_var h = (Raise TypeError, h)).
Proof.
  intros Hsplit Hres.
  change (_run_func "lookup" [VStr path] global_var h)
    with (lookup_walk (split "." path) global_var h).
  rewrite Hsplit, (lookup_walk_resolves _ _ _ _ Hres).
  repeat split.
  - intros l d -> Hl Hseg. simpl. unfold bind, deref, ret. simpl.
    rewrite Hl. simpl. rewrite Hseg. reflexivity.
  - intros s -> Hin. simpl. unfold bind, ret. simpl. rewrite Hin. reflexivity.
  - intros s -> Hin. simpl. unfold bind, ret. simpl. rewrite Hin. reflexivity.
  - intros x ->. reflexivity.
  - intros ->. reflexivity.
Qed.

Lemma sensor_name_resolves :
  resolves sensor_heap (VRef 0) ["sensor"; "name"] (VStr "hot").
Proof.
  eapply resolves_cons; [vm_compute; reflexivity | vm_compute; reflexivity |].
  eapply resolves_cons; [vm_compute; reflexivity | vm_compute; reflexivity |].
  apply resolves_nil.
Qed.

Lemma run_func_lookup_at_terminal_witness :
  _run_func "lookup" [VStr "sensor.name.o"] (VRef 0) sensor_heap
  = (Raise TypeError, sensor_heap).
Proof.
  apply (proj1 (proj2 (proj2
           (run_func_lookup_at_terminal "sensor.name.o" (VRef 0) sensor_heap
              ["sensor"; "name"] "o" [] (VStr "hot") eq_refl
              sensor_name_resolves))) "hot" eq_refl).
  reflexivity.
Defined.

(** C10, as stated, fails on the path [sensor.name.x]: the segment [name]
    resolves to the string [hot] while the segment [x] remains, and the
    result is [None], not an error: the membership test on a string is the
    substring test. *)
Lemma run_func_lookup_past_string_is_none :
  resolves sensor_heap (VRef 0) ["sensor"; "name"] (VStr "hot")
  /\ split "." "sensor.name.x" = ["sensor"; "name"] ++ "x" :: []
  /\ _run_func "lookup" [VStr "sensor.name.x"] (VRef 0) sensor_heap
     = (Ok VNone, sensor_heap).
Proof.
  split; [exact sensor_name_resolves|].
  split; vm_compute; reflexivity.
Qed.

(** ** Parser: argument lists *)

Lemma spec_arguments_cons (nodes : list node) :
  exists prog args, spec_arguments nodes = prog :: args.
Proof.
  induction nodes as [|n nodes [prog [args IH]]]; simpl.
  - eauto.
  - destruct (is_punc "," n); [eauto|]. rewrite IH. eauto.
Qed.

Lemma close_paren_not_comma (n : node) :
  is_punc ")" n = true -> is_punc "," n = false.
Proof.
  destruct n as [v | op | f a | w]; simpl; try discriminate.
  intros H. apply String.eqb_eq in H. subst w. reflexivity.
Qed.

Section args_loop_facts.
Variable parse_node : list string -> nat -> res (node * nat).
Variable word_list : list string.

Lemma args_loop_node_run i nodes k :
  node_run parse_node word_list i nodes k ->
  forall close k' n args prog,
    parse_node word_list k = Ok (close, k') ->
    is_punc ")" close = true ->
    length nodes < n ->
    args_loop parse_node n word_list i args prog
    = Ok (continue_with args prog (spec_arguments nodes), k').
Proof.
  induction 1 as [i | i m j nodes k Hm Hnot _ IH];
    intros close k' n args prog Hclose Hparen Hfuel.
  - destruct n as [|n]; [simpl in Hfuel; lia|].
    simpl. rewrite Hclose. simpl.
    rewrite (close_paren_not_comma _ Hparen), Hparen.
    rewrite app_nil_r. reflexivity.
  - destruct n as [|n]; [simpl in Hfuel; lia|].
    simpl in Hfuel. simpl. rewrite Hm. simpl. rewrite Hnot.
    destruct (spec_arguments_cons nodes) as [first [others Hspec]].
    destruct (is_punc "," m) eqn:Hcomma.
    + rewrite (IH close k' n (args ++ [prog]) [] Hclose Hparen) by lia.
      rewrite Hspec. simpl. rewrite app_nil_r, <- app_assoc. reflexivity.
    + rewrite (IH close k' n args (prog ++ [m]) Hclose Hparen) by lia.
      rewrite Hspec. simpl. rewrite <- app_assoc. reflexivity.
Qed.

End args_loop_facts.

(** C6: [_parse_args] parses one node and, when it is not ["("], raises no
    syntax error: the [raise] of line 231 names [InvalidSyntaxException],
    which is bound nowhere (the class of the file is
    [InvalidFythonSyntaxException]), and the statement raises [NameError].
    Otherwise, when the nodes parsed next are
    [nodes] followed by the [")"] node, it returns the arguments of [nodes]
    -- every node goes to the current argument, a [","] node closes it and
    opens an empty one, and the last argument, empty for a call without
    arguments, is closed by [")"] -- and the cursor after [")"]. *)
Theorem parse_args_arguments (E : Env) (fuel : nat) (word_list : list string)
    (word_index : nat) :
  (forall n j,
     _parse_node fuel word_list word_index = Ok (n, j) ->
     is_punc "(" n = false ->
     _parse_args fuel word_list word_index
     = Raise (NameError "InvalidSyntaxException"))
  /\ (forall n j nodes k close k',
     _parse_node fuel word_list word_index = Ok (n, j) ->
     is_punc "(" n = true ->
     node_run (_parse_node fuel) word_list j nodes k ->
     _parse_node fuel word_list k = Ok (close, k') ->
     is_punc ")" close = true ->
     length nodes < fuel ->
     _parse_args fuel word_list word_index = Ok (spec_arguments nodes, k'))
  /\ is_syntax_error (NameError "InvalidSyntaxException") = false.
Proof.
  split; [|split; [|reflexivity]].
  - intros n j Hn Hopen. unfold _parse_args, parse_args_with.
    rewrite Hn. simpl. rewrite Hopen. reflexivity.
  - intros n j nodes k close k' Hn Hopen Hrun Hclose Hparen Hfuel.
    unfold _parse_args, parse_args_with. rewrite Hn. simpl. rewrite Hopen. simpl.
    rewrite (args_loop_node_run _ _ _ _ _ Hrun close k' fuel [] [] Hclose Hparen Hfuel).
    destruct (spec_arguments_cons nodes) as [first [others Hspec]].
    rewrite Hspec. reflexivity.
Qed.

Lemma parse_args_arguments_witness :
  @_parse_args sample_env 4 ["min"; "("; "1"; ","; "2"; ")"] 1
  = Ok ([[Var (VNum 1)]; [Var (VNum 2)]], 6)
  /\ @_parse_args sample_env 4 ["min"; "1"] 1
  = Raise (NameError "InvalidSyntaxException").
Proof.
  split.
  - apply (proj1 (proj2 (parse_args_arguments sample_env 4
                           ["min"; "("; "1"; ","; "2"; ")"] 1))
             (Punc "(") 2 [Var (VNum 1); Punc ","; Var (VNum 2)] 5 (Punc ")") 6);
      try reflexivity; [|simpl; lia].
    repeat (eapply node_run_cons; [reflexivity | reflexivity |]).
    apply node_run_nil.
  - apply (proj1 (parse_args_arguments sample_env 4 ["min"; "1"] 1)
             (Var (VNum 1)) 2); reflexivity.
Defined.

(** A call without arguments has one, empty, argument program. *)
Example parse_args_no_argument :
  @_parse_args sample_env 2 ["("; ")"] 0 = Ok ([[]], 2).
Proof. reflexivity. Qed.

(** A nested call is one node of the argument that holds it. *)
Example parse_node_nested_call :
  @_parse_node sample_env 8
    ["max"; "("; "1"; ","; "min"; "("; "2"; ","; "3"; ")"; ")"] 0
  = Ok (Func "max" [[Var (VNum 1)];
                    [Func "min" [[Var (VNum 2)]; [Var (VNum 3)]]]], 11).
Proof. vm_compute. reflexivity. Qed.

(** The words of [2-1-1] and of [min(1,2)+3] are parsed, node by node,
    into the two instruction sequences evaluated above. *)
Example parse_2_minus_1_minus_1 :
  node_run (@_parse_node sample_env 1) ["2"; "-"; "1"; "-"; "1"] 0
    prog_2_minus_1_minus_1 5.
Proof.
  unfold prog_2_minus_1_minus_1.
  repeat (eapply node_run_cons; [vm_compute; reflexivity | reflexivity |]).
  apply node_run_nil.
Qed.

Example parse_min_1_2_plus_3 :
  node_run (@_parse_node sample_env 5)
    ["min"; "("; "1"; ","; "2"; ")"; "+"; "3"] 0 prog_min_1_2_plus_3 8.
Proof.
  unfold prog_min_1_2_plus_3.
  repeat (eapply node_run_cons; [vm_compute; reflexivity | reflexivity |]).
  apply node_run_nil.
Qed.

(** A word that is no literal of a known shape becomes a string literal
    and the cursor stays on it: an argument list that holds such a word is
    parsed for as long as the fuel lasts. *)
Example parse_args_unknown_word (fuel : nat) :
  @_parse_args sample_env fuel ["("; "sensor"; ")"] 0 = OutOfFuel.
Proof.
  unfold _parse_args, parse_args_with.
  destruct fuel as [|fuel]; [reflexivity|].
  change (@_parse_node sample_env (S fuel) ["("; "sensor"; ")"] 0)
    with (@Ok (node * nat) (Punc "(", 1)).
  simpl res_bind. cbv iota beta. simpl negb. cbv iota.
  assert (H : forall n prog,
             args_loop (@_parse_node sample_env (S fuel)) n
               ["("; "sensor"; ")"] 1 [] prog = OutOfFuel).
  { induction n as [|n IH]; intros prog; [reflexivity|].
    simpl args_loop.
    change (@_parse_node sample_env (S fuel) ["("; "sensor"; ")"] 1)
      with (@Ok (node * nat) (Var (VStr "sensor"), 1)).
    simpl. apply IH. }
  apply H.
Qed.

(** ** Lexer: outcome, content and shape of the tokens *)

Lemma char_classes_disjoint (c : ascii) :
  (is_word_char c = true -> is_special c = false /\ is_white c = false)
  /\ (is_special c = true -> is_white c = false).
Proof.
  destruct c as [[] [] [] [] [] [] [] []]; vm_compute; split; intros; try split;
    congruence.
Qed.

(** The white-space loop appends [r] more copies of [char], the characters
    it passes over. *)
Lemma aggregate_run n script char :
  forall char_idx word_buffer char_idx' word_buffer',
    aggregate n script char char_idx word_buffer = (char_idx', word_buffer') ->
    exists r,
      char_idx' = char_idx + r
      /\ word_buffer' = word_buffer ++ replicate r char
      /\ take (S char_idx') (list_ascii_of_string script)
         = take (S char_idx) (list_ascii_of_string script) ++ replicate r char.
Proof.
  induction n as [|n IH]; intros i wb i' wb' Hagg; simpl in Hagg.
  - injection Hagg as <- <-. exists 0. rewrite Nat.add_0_r, !app_nil_r. auto.
  - rewrite get_lookup in Hagg.
    destruct (list_ascii_of_string script !! (i + 1)) as [c|] eqn:Hc.
    2:{ injection Hagg as <- <-. exists 0. rewrite Nat.add_0_r, !app_nil_r. auto. }
    destruct (Ascii.eqb_spec c char) as [->|Hne].
    2:{ injection Hagg as <- <-. exists 0. rewrite Nat.add_0_r, !app_nil_r. auto. }
    apply IH in Hagg. destruct Hagg as [r [-> [-> Htake]]].
    exists (S r). split; [lia|]. split.
    + rewrite <- app_assoc. reflexivity.
    + rewrite Htake. replace (S (i + 1)) with (S (S i)) by lia.
      replace (i + 1) with (S i) in Hc by lia.
      rewrite (take_S_r _ (S i) char Hc), <- app_assoc. reflexivity.
Qed.

Lemma doubled_app (l1 l2 : list ascii) : doubled (l1 ++ l2) = doubled l1 ++ doubled l2.
Proof. unfold doubled. apply flat_map_app. Qed.

Lemma doubled_replicate (c : ascii) (k : nat) :
  is_white c = true -> doubled (replicate k c) = replicate (k + k) c.
Proof.
  intros Hc. induction k as [|k IH]; [reflexivity|].
  replace (S k + S k) with (S (S (k + k))) by lia.
  change (doubled (replicate (S k) c))
    with ((if is_white c then [c; c] else [c]) ++ doubled (replicate k c)).
  rewrite Hc, IH. reflexivity.
Qed.

Lemma doubled_white_run (c : ascii) (r : nat) :
  is_white c = true ->
  doubled (c :: replicate r c) = (c :: replicate r c) ++ (c :: replicate r c).
Proof.
  intros Hc. change (c :: replicate r c) with (replicate (S r) c).
  rewrite doubled_replicate by exact Hc. apply replicate_add.
Qed.

Lemma chars_snoc_flush (word_list : list string) (word_buffer : list ascii) :
  list_ascii_of_string
    (join (if (0 <? length word_buffer)%nat
           then word_list ++ [flush word_buffer] else word_list))
  = list_ascii_of_string (join word_list) ++ word_buffer.
Proof.
  destruct word_buffer as [|b wb]; cbn [Nat.ltb Nat.leb length].
  - now rewrite app_nil_r.
  - rewrite list_ascii_of_join_snoc. unfold flush.
    now rewrite list_ascii_of_string_of_list_ascii.
Qed.

Lemma take_all_of_get_None (script : string) (char_idx : nat) :
  list_ascii_of_string script !! char_idx = None ->
  take char_idx (list_ascii_of_string script) = list_ascii_of_string script.
Proof. intros H. apply take_ge. now apply lookup_ge_None. Qed.

(** The characters of the tokens and of the buffer are those of the script
    read so far, white space doubled. *)
Lemma decompose_loop_doubled (script : string) :
  forall n char_idx word_list word_buffer word_list' word_buffer',
    decompose_loop n script char_idx word_list word_buffer
    = Ok (word_list', word_buffer') ->
    list_ascii_of_string (join word_list) ++ word_buffer
    = doubled (take char_idx (list_ascii_of_string script)) ->
    list_ascii_of_string (join word_list') ++ word_buffer'
    = doubled (list_ascii_of_string script).
Proof.
  induction n as [|n IH]; intros i wl wb wl' wb' Hloop Hinv;
    simpl in Hloop; rewrite get_lookup in Hloop;
    destruct (list_ascii_of_string script !! i) as [c|] eqn:Hc;
    try discriminate;
    try (injection Hloop as <- <-; rewrite Hinv;
         now rewrite (take_all_of_get_None _ _ Hc)).
  assert (Htake : take (S i) (list_ascii_of_string script)
                  = take i (list_ascii_of_string script) ++ [c])
    by now apply take_S_r.
  change (isalpha c || isdigit c || char_in c WORD_CHAR) with (is_word_char c) in Hloop.
  change (char_in c MATH_KW || char_in c PUNCTUATION || char_in c LINE_BREAK)
    with (is_special c) in Hloop.
  change (char_in c WHITE_SPACE) with (is_white c) in Hloop.
  destruct (char_classes_disjoint c) as [Hword Hspecial].
  destruct (is_word_char c) eqn:Hw.
  { destruct (Hword eq_refl) as [_ Hnw].
    apply IH in Hloop; [exact Hloop|].
    replace (i + 1) with (S i) by lia.
    rewrite Htake, doubled_app, <- Hinv. simpl. unfold doubled. simpl.
    rewrite Hnw. simpl. now rewrite app_assoc. }
  destruct (is_special c) eqn:Hs.
  { pose proof (Hspecial eq_refl) as Hnw.
    apply IH in Hloop; [exact Hloop|].
    replace (i + 1) with (S i) by lia.
    rewrite Htake, doubled_app, <- Hinv, list_ascii_of_join_snoc, chars_snoc_flush.
    unfold doubled. simpl. rewrite Hnw. simpl.
    destruct wb; simpl; now rewrite ?app_nil_r, <- ?app_assoc. }
  destruct (is_white c) eqn:Hwh; [|discriminate].
  destruct (aggregate (String.length script) script c i [c]) as [i' run] eqn:Hagg.
  apply aggregate_run in Hagg. destruct Hagg as [r [-> [-> Hrun]]].
  apply IH in Hloop; [exact Hloop|].
  replace (i + r + 1) with (S (i + r)) by lia.
  rewrite Hrun, Htake, <- app_assoc, doubled_app, <- Hinv.
  rewrite list_ascii_of_join_snoc, chars_snoc_flush. unfold flush.
  rewrite list_ascii_of_string_of_list_ascii.
  change ([c] ++ replicate r c) with (c :: replicate r c).
  rewrite (doubled_white_run c r Hwh). now rewrite <- !app_assoc.
Qed.

Lemma decompose_script_chars (script : string) (word_list : list string) :
  decompose_script script = Ok word_list ->
  list_ascii_of_string (token_texts word_list)
  = doubled (list_ascii_of_string script).
Proof.
  unfold decompose_script. intros Hdec.
  destruct (decompose_loop (String.length script) script 0 [] [])
    as [[wl wb] | e |] eqn:Hloop; simpl in Hdec; try discriminate.
  injection Hdec as <-.
  apply decompose_loop_doubled in Hloop; [|reflexivity].
  unfold token_texts. rewrite chars_snoc_flush. exact Hloop.
Qed.

(** X2: when the lexer returns, the concatenation of its tokens is the
    script with every space and every tab written twice. *)
Theorem decompose_script_doubles_white_space (script : string)
    (word_list : list string) :
  decompose_script script = Ok word_list ->
  list_ascii_of_string (token_texts word_list)
  = doubled (list_ascii_of_string script).
Proof. apply decompose_script_chars. Qed.

Lemma decompose_script_doubles_white_space_witness :
  list_ascii_of_string (token_texts ["a"; " "; " b"])
  = doubled (list_ascii_of_string "a b").
Proof.
  apply (decompose_script_doubles_white_space "a b" ["a"; " "; " b"]).
  vm_compute. reflexivity.
Defined.

Lemma doubled_length (chars : list ascii) :
  length (doubled chars) = length chars + length (List.filter is_white chars).
Proof.
  induction chars as [|c chars IH]; [reflexivity|].
  change (doubled (c :: chars))
    with ((if is_white c then [c; c] else [c]) ++ doubled chars).
  rewrite length_app, IH. simpl. destruct (is_white c); simpl; lia.
Qed.

Lemma doubled_no_white (chars : list ascii) :
  forallb (fun c => negb (is_white c)) chars = true -> doubled chars = chars.
Proof.
  induction chars as [|c chars IH]; [reflexivity|].
  simpl. intros H. apply andb_prop in H. destruct H as [Hc Hrest].
  change (doubled (c :: chars))
    with ((if is_white c then [c; c] else [c]) ++ doubled chars).
  destruct (is_white c); [discriminate|]. rewrite (IH Hrest). reflexivity.
Qed.

Lemma filter_nil_forallb (chars : list ascii) :
  length (List.filter is_white chars) = 0 ->
  forallb (fun c => negb (is_white c)) chars = true.
Proof.
  induction chars as [|c chars IH]; [reflexivity|].
  simpl. destruct (is_white c); simpl; [discriminate|exact IH].
Qed.

(** X3: when the lexer returns, the concatenation of its tokens is the
    script exactly when the script has no space and no tab. *)
Theorem decompose_script_round_trip_iff (script : string)
    (word_list : list string) :
  decompose_script script = Ok word_list ->
  (token_texts word_list = script
   <-> forallb (fun c => negb (is_white c)) (list_ascii_of_string script) = true).
Proof.
  intros Hdec. apply decompose_script_chars in Hdec. split.
  - intros Heq. rewrite Heq in Hdec. apply filter_nil_forallb.
    apply (f_equal (@length ascii)) in Hdec. rewrite doubled_length in Hdec. lia.
  - intros Hno. rewrite (doubled_no_white _ Hno) in Hdec.
    rewrite <- (string_of_list_ascii_of_string script), <- Hdec.
    now rewrite string_of_list_ascii_of_string.
Qed.

Lemma decompose_script_round_trip_iff_witness :
  token_texts ["min"; "("; "1"; ","; "2"; ")"; "+"; "3"] = "min(1,2)+3"
  <-> forallb (fun c => negb (is_white c)) (list_ascii_of_string "min(1,2)+3")
      = true.
Proof.
  apply (decompose_script_round_trip_iff "min(1,2)+3").
  vm_compute. reflexivity.
Defined.

Lemma find_illegal_white_run (c : ascii) (r : nat) (rest : list ascii) :
  is_white c = true ->
  List.find illegal (replicate r c ++ rest) = List.find illegal rest.
Proof.
  intros Hc. induction r as [|r IH]; [reflexivity|].
  simpl. unfold illegal at 1. rewrite Hc, !orb_true_r. simpl. exact IH.
Qed.

Lemma drop_after_run (l : list ascii) (i j : nat) (run : list ascii) :
  take j l = take i l ++ run -> drop i l = run ++ drop j l.
Proof.
  intros Htake. apply (app_inv_head (take i l)).
  rewrite take_drop, app_assoc, <- Htake, take_drop. reflexivity.
Qed.

(** The loop stops on the first character of no class after [char_idx],
    and returns when there is none. *)
Lemma decompose_loop_outcome (script : string) :
  forall n char_idx word_list word_buffer,
    String.length script <= n + char_idx ->
    match List.find illegal (drop char_idx (list_ascii_of_string script)) with
    | Some c =>
        decompose_loop n script char_idx word_list word_buffer
        = Raise (InvalidFythonSyntaxException (IllegalSymbol c))
    | None =>
        exists word_list' word_buffer',
          decompose_loop n script char_idx word_list word_buffer
          = Ok (word_list', word_buffer')
    end.
Proof.
  induction n as [|n IH]; intros i wl wb Hlen; simpl; rewrite get_lookup;
    destruct (list_ascii_of_string script !! i) as [c|] eqn:Hc;
    try (rewrite drop_ge by (now apply lookup_ge_None); simpl; eauto).
  { apply lookup_lt_Some in Hc. rewrite length_list_ascii in Hc. lia. }
  rewrite (drop_S _ _ _ Hc). simpl.
  change (isalpha c || isdigit c || char_in c WORD_CHAR) with (is_word_char c).
  change (char_in c MATH_KW || char_in c PUNCTUATION || char_in c LINE_BREAK)
    with (is_special c).
  change (char_in c WHITE_SPACE) with (is_white c).
  unfold illegal at 1.
  destruct (is_word_char c) eqn:Hw; simpl.
  { replace (i + 1) with (S i) by lia. apply IH. lia. }
  destruct (is_special c) eqn:Hs; simpl.
  { replace (i + 1) with (S i) by lia. apply IH. lia. }
  destruct (is_white c) eqn:Hwh; simpl; [|reflexivity].
  destruct (aggregate (String.length script) script c i [c]) as [i' run] eqn:Hagg.
  apply aggregate_run in Hagg. destruct Hagg as [r [-> [-> Hrun]]].
  rewrite (drop_after_run _ (S i) (S (i + r)) _ Hrun).
  rewrite (find_illegal_white_run c r _ Hwh).
  replace (i + r + 1) with (S (i + r)) by lia. apply IH. lia.
Qed.

Lemma decompose_script_find_illegal (script : string) :
  match List.find illegal (list_ascii_of_string script) with
  | Some c =>
      decompose_script script
      = Raise (InvalidFythonSyntaxException (IllegalSymbol c))
  | None => exists word_list, decompose_script script = Ok word_list
  end.
Proof.
  unfold decompose_script.
  pose proof (decompose_loop_outcome script (String.length script) 0 [] []) as H.
  rewrite drop_0 in H.
  destruct (List.find illegal (list_ascii_of_string script)) as [c|].
  - rewrite H by lia. reflexivity.
  - destruct H as [wl [wb H]]; [lia|]. rewrite H. simpl. eauto.
Qed.

(** X1: the lexer raises on the first character that is no letter, digit,
    underscore, operator, punctuation, line break, space or tab, and
    reports that character; on a script without such a character it
    returns its tokens. *)
Theorem decompose_script_outcome (script : string) :
  match List.find illegal (list_ascii_of_string script) with
  | Some c =>
      decompose_script script
      = Raise (InvalidFythonSyntaxException (IllegalSymbol c))
  | None => exists word_list, decompose_script script = Ok word_list
  end.
Proof. apply decompose_script_find_illegal. Qed.

(** An [@] after legal text is reported; the text before it is dropped. *)
Example decompose_script_at_sign :
  decompose_script "1 + @x$"
  = Raise (InvalidFythonSyntaxException (IllegalSymbol "@")).
Proof. vm_compute. reflexivity. Qed.

Lemma well_cut_flush (word_buffer : list ascii) :
  word_buffer <> [] ->
  Forall (fun c => is_special c = false) word_buffer ->
  well_cut (flush word_buffer).
Proof.
  intros Hne Hall. split.
  - destruct word_buffer; [contradiction | discriminate].
  - intros c Hin Hs. unfold flush in Hin.
    rewrite list_ascii_of_string_of_list_ascii in Hin.
    rewrite Forall_forall in Hall. apply list_elem_of_In, Hall in Hin. congruence.
Qed.

Lemma well_cut_special (c : ascii) : well_cut (String c "").
Proof.
  split; [discriminate|]. intros c' [<- | []] _. reflexivity.
Qed.

Lemma well_cut_snoc_flush (word_list : list string) (word_buffer : list ascii) :
  Forall well_cut word_list ->
  Forall (fun c => is_special c = false) word_buffer ->
  Forall well_cut (if (0 <? length word_buffer)%nat
                   then word_list ++ [flush word_buffer] else word_list).
Proof.
  intros Hwl Hwb. destruct word_buffer as [|b wb]; cbn [Nat.ltb Nat.leb length];
    [exact Hwl|].
  apply Forall_app. split; [exact Hwl|].
  apply Forall_cons. split; [|apply Forall_nil_2].
  apply well_cut_flush; [discriminate | exact Hwb].
Qed.

(** Every token emitted is well cut, and the buffer holds no special
    character. *)
Lemma decompose_loop_well_cut (script : string) :
  forall n char_idx word_list word_buffer word_list' word_buffer',
    decompose_loop n script char_idx word_list word_buffer
    = Ok (word_list', word_buffer') ->
    Forall well_cut word_list ->
    Forall (fun c => is_special c = false) word_buffer ->
    Forall well_cut word_list'
    /\ Forall (fun c => is_special c = false) word_buffer'.
Proof.
  induction n as [|n IH]; intros i wl wb wl' wb' Hloop Hwl Hwb;
    simpl in Hloop; destruct (String.get i script) as [c|];
    try discriminate; try (injection Hloop as <- <-; now split).
  change (isalpha c || isdigit c || char_in c WORD_CHAR) with (is_word_char c) in Hloop.
  change (char_in c MATH_KW || char_in c PUNCTUATION || char_in c LINE_BREAK)
    with (is_special c) in Hloop.
  change (char_in c WHITE_SPACE) with (is_white c) in Hloop.
  destruct (char_classes_disjoint c) as [Hword _].
  destruct (is_word_char c) eqn:Hw.
  { apply IH in Hloop; [exact Hloop | exact Hwl |].
    apply Forall_app. split; [exact Hwb|].
    apply Forall_cons. split; [apply (Hword eq_refl) | apply Forall_nil_2]. }
  destruct (is_special c) eqn:Hs.
  { apply IH in Hloop; [exact Hloop | |].
    - apply Forall_app. split; [now apply well_cut_snoc_flush|].
      apply Forall_cons. split; [apply well_cut_special | apply Forall_nil_2].
    - destruct wb; cbn [Nat.ltb Nat.leb length]; [exact Hwb | apply Forall_nil_2]. }
  destruct (is_white c) eqn:Hwh; [|discriminate].
  destruct (aggregate (String.length script) script c i [c]) as [i' run] eqn:Hagg.
  apply aggregate_run in Hagg. destruct Hagg as [r [-> [-> _]]].
  assert (Hrun : Forall (fun c => is_special c = false) ([c] ++ replicate r c)).
  { apply Forall_app. split.
    - apply Forall_cons. split; [exact Hs | apply Forall_nil_2].
    - apply Forall_replicate. exact Hs. }
  apply IH in Hloop; [exact Hloop | | exact Hrun].
  apply Forall_app. split; [now apply well_cut_snoc_flush|].
  apply Forall_cons. split; [|apply Forall_nil_2].
  apply well_cut_flush; [discriminate | exact Hrun].
Qed.

(** X4: no token is empty, and an operator, a punctuation character or a
    line break is always a token of its own: a token that holds one is that
    one character.  In particular the point of [1.5] is cut off the
    digits. *)
Theorem decompose_script_well_cut (script : string) (word_list : list string) :
  decompose_script script = Ok word_list -> Forall well_cut word_list.
Proof.
  unfold decompose_script. intros Hdec.
  destruct (decompose_loop (String.length script) script 0 [] [])
    as [[wl wb] | e |] eqn:Hloop; simpl in Hdec; try discriminate.
  injection Hdec as <-.
  apply decompose_loop_well_cut in Hloop;
    [| apply Forall_nil_2 | apply Forall_nil_2].
  destruct Hloop as [Hwl Hwb]. now apply well_cut_snoc_flush.
Qed.

Lemma decompose_script_well_cut_witness :
  Forall well_cut ["1_000"; "."; "5"].
Proof.
  apply (decompose_script_well_cut "1_000.5" ["1_000"; "."; "5"]).
  vm_compute. reflexivity.
Defined.

(** ** Classifier: white space *)

Lemma is_white_cases (c : ascii) : is_white c = true -> c = tab \/ c = " "%char.
Proof.
  unfold is_white, char_in. simpl. rewrite !orb_true_iff.
  intros [H | [H | H]]; [| | discriminate]; apply Ascii.eqb_eq in H; auto.
Qed.

(** A string without the separator is its own single segment. *)
Lemma split_from_no_sep (sep : ascii) (s : string) :
  forall cur,
    forallb (fun c => negb (Ascii.eqb c sep)) (list_ascii_of_string s) = true ->
    split_from sep s cur = [string_of_list_ascii (cur ++ list_ascii_of_string s)].
Proof.
  induction s as [|c s IH]; intros cur Hno; simpl.
  - now rewrite app_nil_r.
  - simpl in Hno. apply andb_prop in Hno. destruct Hno as [Hc Hs].
    destruct (Ascii.eqb c sep); [discriminate|].
    rewrite (IH _ Hs), <- app_assoc. reflexivity.
Qed.

Lemma white_no_underscore (chars : list ascii) :
  forallb is_white chars = true ->
  forallb (fun c => negb (Ascii.eqb c "_")) chars = true.
Proof.
  induction chars as [|c chars IH]; [reflexivity|]. simpl.
  intros H. apply andb_prop in H. destruct H as [Hc Hrest].
  rewrite (IH Hrest), andb_true_r.
  destruct (is_white_cases c Hc) as [-> | ->]; reflexivity.
Qed.

Lemma white_word_not_identifier (word : string) :
  word <> "" ->
  forallb is_white (list_ascii_of_string word) = true ->
  is_identifier word = Ok false.
Proof.
  intros Hne Hwhite. unfold is_identifier, split.
  rewrite (split_from_no_sep _ _ [] (white_no_underscore _ Hwhite)).
  simpl app. rewrite string_of_list_ascii_of_string.
  destruct word as [|c rest]; [contradiction|].
  simpl in Hwhite. apply andb_prop in Hwhite. destruct Hwhite as [Hc _].
  cbn [List.filter String.length Nat.ltb Nat.leb forallb].
  unfold str_isalnum. cbn [list_ascii_of_string forallb].
  destruct (is_white_cases c Hc) as [-> | ->]; reflexivity.
Qed.

Lemma white_word_no_keyword (c : ascii) (rest : string) :
  is_white c = true -> existsb (String.eqb (String c rest)) VAR_KW = false.
Proof.
  intros Hc. destruct (is_white_cases c Hc) as [-> | ->]; reflexivity.
Qed.

Lemma white_word_not_single (c : ascii) (rest : string) :
  is_white c = true ->
  (if (String.length (String c rest) =? 1)%nat then
     if str_in (String c rest) PUNCTUATION then Some Punctuation
     else if str_in (String c rest) MATH_KW then Some MathOperation
     else if String.eqb (String c rest) LINE_BREAK then Some LineBreak
     else None
   else None) = None.
Proof.
  intros Hc. destruct rest as [|c' rest]; [|reflexivity].
  destruct (is_white_cases c Hc) as [-> | ->]; reflexivity.
Qed.

(** X5: a non-empty word of spaces and tabs is indentation when it starts
    its line ([pos_index] is 0) and a separator anywhere else. *)
Theorem classify_word_white_space (E : Env) (word : string) (pos_index : nat) :
  word <> "" ->
  forallb is_white (list_ascii_of_string word) = true ->
  classify_word word pos_index
  = Ok (if (pos_index =? 0)%nat then Whitespace_spacing
        else Whitespace_separator).
Proof.
  intros Hne Hwhite.
  pose proof (white_word_not_identifier word Hne Hwhite) as Hid.
  destruct word as [|c rest]; [contradiction|].
  pose proof Hwhite as Hw. simpl in Hw. apply andb_prop in Hw.
  destruct Hw as [Hc _].
  unfold classify_word.
  rewrite (white_word_not_single c rest Hc), (white_word_no_keyword c rest Hc), Hid.
  cbn [res_bind].
  change (fun char => char_in char WHITE_SPACE) with is_white.
  rewrite Hwhite. reflexivity.
Qed.

Lemma classify_word_white_space_witness :
  @classify_word sample_env "    " 0 = Ok Whitespace_spacing
  /\ @classify_word sample_env " " 7 = Ok Whitespace_separator.
Proof.
  split.
  - apply (classify_word_white_space sample_env "    " 0);
      [discriminate | reflexivity].
  - apply (classify_word_white_space sample_env " " 7);
      [discriminate | reflexivity].
Defined.

(** ** Parser: the cursor *)

Lemma is_punc_Punc (w : string) (n : node) :
  is_punc w n = true -> n = Punc w.
Proof.
  destruct n as [v | op | f a | v]; simpl; try discriminate.
  intros H. apply String.eqb_eq in H. now subst.
Qed.

Section args_loop_cursor.
Variable parse_node : list string -> nat -> res (node * nat).
Variable word_list : list string.
Hypothesis parse_node_cursor :
  forall i n j, parse_node word_list i = Ok (n, j) ->
                i <= j <= length word_list.

Lemma args_loop_cursor n :
  forall i args prog args' j,
    args_loop parse_node n word_list i args prog = Ok (args', j) ->
    i <= j <= length word_list.
Proof.
  induction n as [|n IH]; intros i args prog args' j Hloop; [discriminate|].
  simpl in Hloop.
  destruct (parse_node word_list i) as [[m i'] | e |] eqn:Hm; try discriminate.
  apply parse_node_cursor in Hm. simpl in Hloop.
  destruct (is_punc "," m).
  { apply IH in Hloop. lia. }
  destruct (is_punc ")" m).
  { injection Hloop as <- <-. lia. }
  apply IH in Hloop. lia.
Qed.

End args_loop_cursor.

(** What [_parse_node] returns: the cursor moves on and stays within the
    words; a punctuation node moves it by one; it stays in place only for
    the word returned as a string literal. *)
Lemma parse_node_cursor (E : Env) (fuel : nat) :
  forall word_list i n j,
    _parse_node fuel word_list i = Ok (n, j) ->
    i <= j <= length word_list
    /\ (forall w, n = Punc w -> j = i + 1)
    /\ (j = i -> exists word, word_list !! i = Some word /\ n = Var (VStr word)).
Proof.
  induction fuel as [|fuel IH]; intros wl i n j Hnode; [discriminate|].
  simpl in Hnode.
  destruct (wl !! i) as [word|] eqn:Hword; [|discriminate].
  pose proof (lookup_lt_Some _ _ _ Hword) as Hlt.
  destruct (FUNCTION_KW word).
  { unfold parse_args_with in Hnode.
    destruct (_parse_node fuel wl (i + 1)) as [[m i'] | e |] eqn:Hm;
      try discriminate.
    apply IH in Hm. destruct Hm as [Hm _]. simpl in Hnode.
    destruct (negb (is_punc "(" m)); [discriminate|].
    destruct (args_loop (_parse_node fuel) fuel wl i' [] [])
      as [[args k] | e |] eqn:Hargs; try discriminate.
    apply args_loop_cursor in Hargs;
      [|intros a b c Habc; apply IH in Habc; tauto].
    simpl in Hnode. injection Hnode as <- <-.
    split; [lia|]. split; [discriminate | lia]. }
  repeat match type of Hnode with
         | (if ?b then _ else _) = _ => destruct b
         | res_bind ?r _ = _ => destruct r; try discriminate; simpl in Hnode
         end;
    injection Hnode as <- <-;
    (split; [lia|]; split; [intros; try lia; discriminate|]);
    intros Hji; try lia.
  exists word. auto.
Qed.

(** X8: the cursor [_parse_node] returns is never before the word it was
    given and never past the end of the words, and it is the same word only
    when that word is returned as a string literal; the cursor
    [_parse_args] returns is past its opening parenthesis. *)
Theorem parse_cursor_bounds (E : Env) (fuel : nat) (word_list : list string)
    (word_index : nat) :
  (forall n j,
     _parse_node fuel word_list word_index = Ok (n, j) ->
     word_index <= j <= length word_list
     /\ (j = word_index ->
         exists word, word_list !! word_index = Some word /\ n = Var (VStr word)))
  /\ (forall args j,
     _parse_args fuel word_list word_index = Ok (args, j) ->
     word_index < j <= length word_list).
Proof.
  split.
  - intros n j Hnode. apply parse_node_cursor in Hnode. tauto.
  - intros args j Hargs. unfold _parse_args, parse_args_with in Hargs.
    destruct (_parse_node fuel word_list word_index) as [[m i'] | e |] eqn:Hm;
      try discriminate.
    apply parse_node_cursor in Hm. destruct Hm as [Hm [Hpunc _]].
    simpl in Hargs.
    destruct (is_punc "(" m) eqn:Hopen; [|discriminate]. simpl in Hargs.
    apply is_punc_Punc in Hopen. specialize (Hpunc _ Hopen).
    apply args_loop_cursor in Hargs;
      [|intros a b c Habc; apply parse_node_cursor in Habc; tauto].
    lia.
Qed.

Lemma parse_cursor_bounds_witness :
  (0 <= 6 <= length ["min"; "("; "1"; ","; "2"; ")"]
   /\ (6 = 0 ->
       exists word,
         ["min"; "("; "1"; ","; "2"; ")"] !! 0 = Some word
         /\ Func "min" [[Var (VNum 1)]; [Var (VNum 2)]] = Var (VStr word)))
  /\ 1 < 6 <= length ["min"; "("; "1"; ","; "2"; ")"].
Proof.
  split.
  - apply (proj1 (parse_cursor_bounds sample_env 5
                    ["min"; "("; "1"; ","; "2"; ")"] 0)).
    vm_compute. reflexivity.
  - apply (proj2 (parse_cursor_bounds sample_env 4
                    ["min"; "("; "1"; ","; "2"; ")"] 1)
             [[Var (VNum 1)]; [Var (VNum 2)]]).
    vm_compute. reflexivity.
Defined.

(** ** Parser: more fuel, the same result *)

Section args_loop_extends.
Variables p p' : list string -> nat -> res (node * nat).
Hypothesis Hext : extends p p'.

Lemma args_loop_extends n :
  forall word_list i args prog r,
    args_loop p n word_list i args prog = r -> r <> OutOfFuel ->
    args_loop p' (S n) word_list i args prog = r.
Proof.
  induction n as [|n IH]; intros wl i args prog r Hr Hfuel;
    [simpl in Hr; congruence|].
  change (args_loop p (S n) wl i args prog)
    with (res_bind (p wl i) (fun '(next_node, word_index) =>
            if is_punc "," next_node then
              args_loop p n wl word_index (args ++ [prog]) []
            else if is_punc ")" next_node then Ok (args ++ [prog], word_index)
            else args_loop p n wl word_index args (prog ++ [next_node]))) in Hr.
  change (args_loop p' (S (S n)) wl i args prog)
    with (res_bind (p' wl i) (fun '(next_node, word_index) =>
            if is_punc "," next_node then
              args_loop p' (S n) wl word_index (args ++ [prog]) []
            else if is_punc ")" next_node then Ok (args ++ [prog], word_index)
            else args_loop p' (S n) wl word_index args (prog ++ [next_node]))).
  destruct (p wl i) as [[m j] | e |] eqn:Hm; simpl in Hr.
  - rewrite (Hext wl i _ Hm) by discriminate. simpl.
    destruct (is_punc "," m); [now apply IH|].
    destruct (is_punc ")" m); [exact Hr|]. now apply IH.
  - rewrite (Hext wl i _ Hm) by discriminate. exact Hr.
  - congruence.
Qed.

Lemma parse_args_with_extends n :
  forall word_list i r,
    parse_args_with p n word_list i = r -> r <> OutOfFuel ->
    parse_args_with p' (S n) word_list i = r.
Proof.
  intros wl i r Hr Hfuel. unfold parse_args_with in *.
  destruct (p wl i) as [[m j] | e |] eqn:Hm; simpl in Hr.
  - rewrite (Hext wl i _ Hm) by discriminate. cbn [res_bind].
    destruct (negb (is_punc "(" m)); [exact Hr|]. now apply args_loop_extends.
  - rewrite (Hext wl i _ Hm) by discriminate. exact Hr.
  - congruence.
Qed.

End args_loop_extends.

(** The equation of [_parse_node] for a positive fuel. *)
Lemma parse_node_S (E : Env) (fuel : nat) (wl : list string) (i : nat) :
  _parse_node (S fuel) wl i
  = match wl !! i with
    | None => Raise IndexError
    | Some word =>
        if FUNCTION_KW word then
          res_bind (parse_args_with (_parse_node fuel) fuel wl (i + 1))
            (fun '(args, word_index) => Ok (Func word args, word_index))
        else if str_in word PUNCTUATION then Ok (Punc word, (i + 1)%nat)
        else if str_in word MATH_KW then Ok (Arithmatic word, (i + 1)%nat)
        else if CLOCK_REGEX word then
          res_bind (_parse_24h_clock word) (fun v => Ok (Var v, (i + 1)%nat))
        else if FLOAT_REGEX word then
          res_bind (float_of_str (join (split "_" word)))
            (fun x => Ok (Var (VNum x), (i + 1)%nat))
        else if DURATION_REGEX word then
          res_bind (_parse_duration word) (fun v => Ok (Var v, (i + 1)%nat))
        else if existsb (String.eqb word) VAR_KW then
          res_bind (normalize_time word) (fun v => Ok (Var v, (i + 1)%nat))
        else Ok (Var (VStr word), i)
    end.
Proof. reflexivity. Qed.

Lemma parse_node_extends_S (E : Env) (fuel : nat) :
  extends (_parse_node fuel) (_parse_node (S fuel)).
Proof.
  induction fuel as [|fuel IH]; intros wl i r Hr Hfuel;
    [simpl in Hr; congruence|].
  rewrite parse_node_S. rewrite parse_node_S in Hr.
  destruct (wl !! i) as [word|]; [|exact Hr].
  destruct (FUNCTION_KW word); [|exact Hr].
  destruct (parse_args_with (_parse_node fuel) fuel wl (i + 1))
    as [[args k] | e |] eqn:Hargs; simpl in Hr.
  - rewrite (parse_args_with_extends _ _ IH fuel wl (i + 1) _ Hargs) by discriminate.
    exact Hr.
  - rewrite (parse_args_with_extends _ _ IH fuel wl (i + 1) _ Hargs) by discriminate.
    exact Hr.
  - congruence.
Qed.

Lemma parse_node_extends (E : Env) (fuel fuel' : nat) :
  fuel <= fuel' -> extends (_parse_node fuel) (_parse_node fuel').
Proof.
  induction 1 as [|fuel' _ IH].
  - intros wl i r Hr _. exact Hr.
  - intros wl i r Hr Hfuel. apply parse_node_extends_S; [|exact Hfuel].
    now apply IH.
Qed.

Lemma parse_args_extends (E : Env) (fuel fuel' : nat) :
  fuel <= fuel' ->
  forall word_list i r,
    _parse_args fuel word_list i = r -> r <> OutOfFuel ->
    _parse_args fuel' word_list i = r.
Proof.
  induction 1 as [|fuel' Hle IH]; intros wl i r Hr Hfuel; [exact Hr|].
  unfold _parse_args in *.
  apply (parse_args_with_extends _ _ (parse_node_extends_S E fuel'));
    [|exact Hfuel].
  now apply IH.
Qed.

Lemma node_run_extends (p p' : list string -> nat -> res (node * nat))
    (word_list : list string) i nodes k :
  extends p p' ->
  node_run p word_list i nodes k -> node_run p' word_list i nodes k.
Proof.
  intros Hext. induction 1 as [i | i n j nodes k Hn Hnot _ IH].
  - apply node_run_nil.
  - eapply node_run_cons; [|exact Hnot | exact IH].
    apply (Hext _ _ _ Hn). discriminate.
Qed.

(** ** Parser: the word that is never passed *)

Lemma parse_node_unknown_word (E : Env) (fuel : nat) (word_list : list string)
    (i : nat) (word : string) :
  word_list !! i = Some word ->
  unknown_word word = true ->
  _parse_node (S fuel) word_list i = Ok (Var (VStr word), i).
Proof.
  intros Hword Hunknown. unfold unknown_word in Hunknown.
  repeat (apply andb_prop in Hunknown; destruct Hunknown as [Hunknown ?]).
  repeat match goal with
         | H : negb _ = true |- _ => apply negb_true_iff in H
         end.
  rewrite parse_node_S, Hword.
  repeat match goal with
         | H : ?b = false |- context [if ?b then _ else _] => rewrite H
         end.
  reflexivity.
Qed.

Section args_loop_stuck.
Variable p : list string -> nat -> res (node * nat).
Variable word_list : list string.

(** Once the node parser returns a node other than [","] and [")"]
    without moving the cursor, the loop only uses up its fuel. *)
Lemma args_loop_stuck k m :
  p word_list k = Ok (m, k) ->
  is_punc "," m = false -> is_punc ")" m = false ->
  forall n args prog, args_loop p n word_list k args prog = OutOfFuel.
Proof.
  intros Hm Hcomma Hclose.
  induction n as [|n IH]; intros args prog; [reflexivity|].
  simpl. rewrite Hm. simpl. rewrite Hcomma, Hclose. apply IH.
Qed.

Lemma args_loop_run_stuck i nodes k m :
  node_run p word_list i nodes k ->
  p word_list k = Ok (m, k) ->
  is_punc "," m = false -> is_punc ")" m = false ->
  forall n args prog, args_loop p n word_list i args prog = OutOfFuel.
Proof.
  intros Hrun Hm Hcomma Hclose.
  induction Hrun as [i | i m' j nodes k Hm' Hnot _ IH]; intros n args prog.
  - now apply (args_loop_stuck i m).
  - destruct n as [|n]; [reflexivity|].
    simpl. rewrite Hm'. simpl. rewrite Hnot.
    destruct (is_punc "," m'); now apply IH.
Qed.

End args_loop_stuck.

(** X9: an argument list in which the parser reaches a word it does not
    recognise is never parsed to its end: the word is returned as a string
    literal with the cursor left on it, so the loop of [_parse_args] reads it
    again and again, and no fuel is enough. *)
Theorem parse_args_unknown_word_diverges (E : Env) (word_list : list string)
    (word_index fuel0 : nat) (n : node) (j : nat) (nodes : list node) (k : nat)
    (word : string) :
  _parse_node fuel0 word_list word_index = Ok (n, j) ->
  is_punc "(" n = true ->
  node_run (_parse_node fuel0) word_list j nodes k ->
  word_list !! k = Some word ->
  unknown_word word = true ->
  forall fuel, _parse_args fuel word_list word_index = OutOfFuel.
Proof.
  intros Hopen Hparen Hrun Hword Hunknown fuel.
  destruct (_parse_args fuel word_list word_index) as [r | e |] eqn:Hres;
    [| |reflexivity]; exfalso.
  all: assert (Hfuel0 : fuel0 <= Nat.max fuel0 fuel) by lia.
  all: assert (Hfuel : fuel <= Nat.max fuel0 fuel) by lia.
  all: apply (parse_args_extends E _ _ Hfuel) in Hres; [|discriminate].
  all: pose proof (parse_node_extends E _ _ Hfuel0) as Hext.
  all: apply (Hext _ _ _) in Hopen; [|discriminate].
  all: apply (node_run_extends _ _ _ _ _ _ Hext) in Hrun.
  all: assert (Hstuck : _parse_node (Nat.max fuel0 fuel) word_list k
                        = Ok (Var (VStr word), k)).
  all: try (destruct (Nat.max fuel0 fuel) as [|f] eqn:Hmax;
            [destruct fuel0; [discriminate | lia]
            | now apply parse_node_unknown_word]).
  all: unfold _parse_args, parse_args_with in Hres; rewrite Hopen in Hres;
    simpl in Hres; rewrite Hparen in Hres; simpl in Hres.
  all: rewrite (args_loop_run_stuck _ _ _ _ _ _ Hrun Hstuck eq_refl eq_refl)
    in Hres; discriminate.
Qed.

Lemma parse_args_unknown_word_diverges_witness :
  @_parse_args sample_env 7 ["lookup"; "("; "sensor"; "."; "temp"; ")"] 1
  = OutOfFuel.
Proof.
  apply (parse_args_unknown_word_diverges sample_env
           ["lookup"; "("; "sensor"; "."; "temp"; ")"] 1 1 (Punc "(") 2 [] 2
           "sensor"); try reflexivity.
  apply node_run_nil.
Defined.

(** ** Parser: errors and content of an argument list *)

Section args_loop_raise.
Variable p : list string -> nat -> res (node * nat).
Variable word_list : list string.

(** An exception of the node parser inside the list is the exception of
    the list. *)
Lemma args_loop_run_raise i nodes k e :
  node_run p word_list i nodes k ->
  p word_list k = Raise e ->
  forall n args prog,
    length nodes < n ->
    args_loop p n word_list i args prog = Raise e.
Proof.
  intros Hrun He.
  induction Hrun as [i | i m j nodes k Hm Hnot _ IH]; intros n args prog Hn.
  - destruct n as [|n]; [simpl in Hn; lia|]. simpl. now rewrite He.
  - destruct n as [|n]; [simpl in Hn; lia|]. simpl in Hn.
    simpl. rewrite Hm. simpl. rewrite Hnot.
    destruct (is_punc "," m); apply IH; (assumption || lia).
Qed.

End args_loop_raise.

(** X10: an argument list that is not closed before the words end raises
    [IndexError]: the loop of [_parse_args] reads the word after the last
    one. *)
Theorem parse_args_unclosed (E : Env) (fuel : nat) (word_list : list string)
    (word_index : nat) (n : node) (j : nat) (nodes : list node) (k : nat) :
  _parse_node fuel word_list word_index = Ok (n, j) ->
  is_punc "(" n = true ->
  node_run (_parse_node fuel) word_list j nodes k ->
  length word_list <= k ->
  length nodes < fuel ->
  _parse_args fuel word_list word_index = Raise IndexError.
Proof.
  intros Hopen Hparen Hrun Hend Hfuel.
  unfold _parse_args, parse_args_with. rewrite Hopen. simpl. rewrite Hparen. simpl.
  apply (args_loop_run_raise _ _ _ _ _ _ Hrun); [|exact Hfuel].
  destruct fuel as [|fuel]; [lia|].
  rewrite parse_node_S, (lookup_ge_None_2 _ _ Hend). reflexivity.
Qed.

Lemma parse_args_unclosed_witness :
  @_parse_args sample_env 4 ["max"; "("; "1"; ","; "5"] 1 = Raise IndexError.
Proof.
  apply (parse_args_unclosed sample_env 4 ["max"; "("; "1"; ","; "5"] 1
           (Punc "(") 2 [Var (VNum 1); Punc ","; Var (VNum 5)] 5);
    [reflexivity | reflexivity | | simpl; lia | simpl; lia].
  repeat (eapply node_run_cons; [reflexivity | reflexivity |]).
  apply node_run_nil.
Defined.

Lemma spec_arguments_concat (nodes : list node) :
  concat (spec_arguments nodes)
  = List.filter (fun n => negb (is_punc "," n)) nodes.
Proof.
  induction nodes as [|n nodes IH]; [reflexivity|]. simpl.
  destruct (is_punc "," n); simpl; [exact IH|].
  destruct (spec_arguments_cons nodes) as [prog [args Hspec]].
  rewrite Hspec in *. simpl in *. now rewrite IH.
Qed.

Lemma spec_arguments_length (nodes : list node) :
  length (spec_arguments nodes) = S (length (List.filter (is_punc ",") nodes)).
Proof.
  induction nodes as [|n nodes IH]; [reflexivity|]. simpl.
  destruct (is_punc "," n); simpl; [now rewrite IH|].
  destruct (spec_arguments_cons nodes) as [prog [args Hspec]].
  rewrite Hspec in *. exact IH.
Qed.

(** X11: the arguments [_parse_args] returns hold every node parsed between
    the parentheses except the commas, in the order parsed, and there is one
    argument more than there are commas. *)
Theorem parse_args_keeps_nodes (E : Env) (fuel : nat) (word_list : list string)
    (word_index : nat) (n : node) (j : nat) (nodes : list node) (k : nat)
    (close : node) (k' : nat) :
  _parse_node fuel word_list word_index = Ok (n, j) ->
  is_punc "(" n = true ->
  node_run (_parse_node fuel) word_list j nodes k ->
  _parse_node fuel word_list k = Ok (close, k') ->
  is_punc ")" close = true ->
  length nodes < fuel ->
  exists args,
    _parse_args fuel word_list word_index = Ok (args, k')
    /\ concat args = List.filter (fun n => negb (is_punc "," n)) nodes
    /\ length args = S (length (List.filter (is_punc ",") nodes)).
Proof.
  intros Hopen Hparen Hrun Hclose Hcparen Hfuel.
  exists (spec_arguments nodes). split; [|split].
  - unfold _parse_args, parse_args_with. rewrite Hopen. simpl. rewrite Hparen. simpl.
    rewrite (args_loop_node_run _ _ _ _ _ Hrun close k' fuel [] [] Hclose
               Hcparen Hfuel).
    destruct (spec_arguments_cons nodes) as [first [others Hspec]].
    rewrite Hspec. reflexivity.
  - apply spec_arguments_concat.
  - apply spec_arguments_length.
Qed.

Lemma parse_args_keeps_nodes_witness :
  exists args,
    @_parse_args sample_env 6 ["("; "1"; "+"; "2"; ","; "3"; ")"] 0 = Ok (args, 7)
    /\ concat args
       = List.filter (fun n => negb (is_punc "," n))
           [Var (VNum 1); Arithmatic "+"; Var (VNum 2); Punc ","; Var (VNum 3)]
    /\ length args
       = S (length (List.filter (is_punc ",")
              [Var (VNum 1); Arithmatic "+"; Var (VNum 2); Punc ","; Var (VNum 3)])).
Proof.
  apply (parse_args_keeps_nodes sample_env 6
           ["("; "1"; "+"; "2"; ","; "3"; ")"] 0 (Punc "(") 1
           [Var (VNum 1); Arithmatic "+"; Var (VNum 2); Punc ","; Var (VNum 3)]
           6 (Punc ")") 7);
    [reflexivity | reflexivity | | reflexivity | reflexivity | simpl; lia].
  repeat (eapply node_run_cons; [reflexivity | reflexivity |]).
  apply node_run_nil.
Defined.

(** ** Parser: digit groups *)

Lemma concat_split_from (sep : ascii) (s : string) :
  forall cur,
    concat (map list_ascii_of_string (split_from sep s cur))
    = cur ++ List.filter (fun c => negb (Ascii.eqb c sep)) (list_ascii_of_string s).
Proof.
  induction s as [|c s IH]; intros cur; simpl.
  - now rewrite list_ascii_of_string_of_list_ascii, !app_nil_r.
  - destruct (Ascii.eqb c sep); simpl.
    + now rewrite list_ascii_of_string_of_list_ascii, IH.
    + now rewrite IH, <- app_assoc.
Qed.

Lemma join_split_underscore (word : string) :
  join (split "_" word) = without_underscores word.
Proof.
  unfold without_underscores.
  rewrite <- (string_of_list_ascii_of_string (join (split "_" word))).
  rewrite list_ascii_of_join. unfold split. now rewrite concat_split_from.
Qed.

(** X12: a word that the float pattern matches, and no earlier test, is
    converted by [float] with all its underscores left out, wherever they
    stand; the node is the float literal and the cursor moves by one, or the
    exception of [float] is raised. *)
Theorem parse_node_float_word (E : Env) (fuel : nat) (word_list : list string)
    (word_index : nat) (word : string) :
  word_list !! word_index = Some word ->
  FUNCTION_KW word = false ->
  str_in word PUNCTUATION = false ->
  str_in word MATH_KW = false ->
  CLOCK_REGEX word = false ->
  FLOAT_REGEX word = true ->
  _parse_node (S fuel) word_list word_index
  = res_bind (float_of_str (without_underscores word))
      (fun x => Ok (Var (VNum x), word_index + 1)).
Proof.
  intros Hword Hf Hp Hm Hc Hfloat.
  rewrite parse_node_S, Hword, Hf, Hp, Hm, Hc, Hfloat, join_split_underscore.
  reflexivity.
Qed.

Lemma parse_node_float_word_witness :
  @_parse_node sample_env 1 ["_1__000_"] 0
  = res_bind (@float_of_str sample_env (without_underscores "_1__000_"))
      (fun x => Ok (Var (VNum x), 0 + 1)).
Proof.
  apply (parse_node_float_word sample_env 0 ["_1__000_"] 0 "_1__000_");
    reflexivity.
Defined.

Example parse_node_digit_groups :
  @_parse_node sample_env 1 ["_1__000_"] 0 = Ok (Var (VNum 1000), 1).
Proof. vm_compute. reflexivity. Qed.

(** ** Evaluator: literals and chains of operators *)

Lemma exec_loop_done evaluate n prog global_var prog_idx exec_stack h :
  length prog <= prog_idx ->
  exec_loop evaluate n prog global_var prog_idx exec_stack h = (Ok exec_stack, h).
Proof.
  intros Hlen. destruct n; simpl; now rewrite (lookup_ge_None_2 _ _ Hlen).
Qed.

Lemma exec_loop_S_Var evaluate n prog global_var prog_idx exec_stack h v :
  prog !! prog_idx = Some (Var v) ->
  exec_loop evaluate (S n) prog global_var prog_idx exec_stack h
  = exec_loop evaluate n prog global_var (prog_idx + 1) (exec_stack ++ [v]) h.
Proof. intros Hinstr. simpl. rewrite Hinstr. reflexivity. Qed.

(** A run of literals is pushed, one round a literal. *)
Lemma exec_loop_literals evaluate global_var suffix h vs :
  forall prefix exec_stack n,
    exec_loop evaluate (length vs + n) (prefix ++ map Var vs ++ suffix)
      global_var (length prefix) exec_stack h
    = exec_loop evaluate n (prefix ++ map Var vs ++ suffix) global_var
        (length prefix + length vs) (exec_stack ++ vs) h.
Proof.
  induction vs as [|v vs IH]; intros prefix st n.
  - simpl. now rewrite Nat.add_0_r, app_nil_r.
  - cbn [length Nat.add map].
    rewrite (exec_loop_S_Var _ _ _ _ _ _ _ v)
      by (simpl; apply list_lookup_middle; reflexivity).
    replace (prefix ++ (Var v :: map Var vs) ++ suffix)
      with ((prefix ++ [Var v]) ++ map Var vs ++ suffix)
      by (now rewrite <- app_assoc).
    replace (length prefix + 1) with (length (prefix ++ [Var v]))
      by (rewrite length_app; reflexivity).
    rewrite IH. rewrite length_app. simpl.
    f_equal; rewrite <- ?app_assoc; simpl; solve [reflexivity | lia].
Qed.

(** X14: a program of literals alone returns its literal when it has
    exactly one; when it has none or several, the stack check raises
    [NameError], the [RuntimeException] it names being bound nowhere. *)
Theorem evaluate_literals (fuel : nat) (vs : list pyval) (global_var : pyval)
    (h : heap) :
  _evaluate_program (S fuel) (map Var vs) global_var h
  = (match vs with
     | [v] => Ok v
     | _ => Raise (NameError "RuntimeException")
     end, h).
Proof.
  change (_evaluate_program (S fuel) (map Var vs) global_var h)
    with (bind (exec_loop (_evaluate_program fuel) (length (map Var vs))
                  (map Var vs) global_var 0 []) final_check h).
  pose proof (exec_loop_literals (_evaluate_program fuel) global_var [] h vs
                [] [] 0) as Hrun.
  rewrite Nat.add_0_r, !app_nil_r in Hrun.
  change ([] ++ map Var vs) with (map Var vs) in Hrun.
  change ([] ++ vs) with vs in Hrun.
  change (@length node [] + length vs) with (length vs) in Hrun.
  change (@length node []) with 0 in Hrun.
  unfold bind. rewrite length_map, Hrun, exec_loop_done
    by (rewrite length_map; lia).
  destruct vs as [|v [|v' vs]]; reflexivity.
Qed.

Lemma exec_loop_S_chain_step evaluate n prog global_var prog_idx acc op v h :
  prog !! prog_idx = Some (Arithmatic op) ->
  prog !! (prog_idx + 1) = Some (Var v) ->
  exec_loop evaluate (S n) prog global_var prog_idx [acc] h
  = match apply_arithmatic op acc v with
    | Ok r => exec_loop evaluate n prog global_var (prog_idx + 2) [r] h
    | Raise e => (Raise e, h)
    | OutOfFuel => (OutOfFuel, h)
    end.
Proof.
  intros Hinstr Hnext. simpl. rewrite Hinstr, Hnext.
  unfold bind, ret, lift. simpl.
  destruct (apply_arithmatic op acc v); reflexivity.
Qed.

(** A chain after a prefix, entered with the result so far as the only
    value of the stack. *)
Lemma exec_loop_chain evaluate global_var h steps :
  forall prefix acc n,
    length (chain steps) <= n ->
    exec_loop evaluate n (prefix ++ chain steps) global_var (length prefix)
      [acc] h
    = match fold_chain acc steps with
      | Ok r => (Ok [r], h)
      | Raise e => (Raise e, h)
      | OutOfFuel => (OutOfFuel, h)
      end.
Proof.
  induction steps as [|[op v] steps IH]; intros prefix acc n Hn.
  - simpl. rewrite app_nil_r. apply exec_loop_done. lia.
  - simpl in Hn. destruct n as [|n]; [lia|].
    change (chain ((op, v) :: steps))
      with (Arithmatic op :: Var v :: chain steps).
    rewrite (exec_loop_S_chain_step _ _ _ _ _ _ op v).
    2:{ apply list_lookup_middle. reflexivity. }
    2:{ replace (prefix ++ Arithmatic op :: Var v :: chain steps)
          with ((prefix ++ [Arithmatic op]) ++ Var v :: chain steps)
          by (now rewrite <- app_assoc).
        apply list_lookup_middle. rewrite length_app. reflexivity. }
    simpl fold_chain.
    destruct (apply_arithmatic op acc v) as [r | e |]; simpl; try reflexivity.
    replace (prefix ++ Arithmatic op :: Var v :: chain steps)
      with ((prefix ++ [Arithmatic op; Var v]) ++ chain steps)
      by (now rewrite <- app_assoc).
    replace (length prefix + 2) with (length (prefix ++ [Arithmatic op; Var v]))
      by (rewrite length_app; reflexivity).
    apply IH. lia.
Qed.

Lemma fold_chain_fuel steps : forall acc, fold_chain acc steps <> OutOfFuel.
Proof.
  induction steps as [|[op v] steps IH]; intros acc; simpl; [discriminate|].
  pose proof (apply_arithmatic_fuel op acc v) as Hop.
  destruct (apply_arithmatic op acc v); simpl; [apply IH | discriminate | congruence].
Qed.

(** X13: a literal followed by operators, each with its literal, is
    evaluated from the left without precedence: each operator is applied to
    the result so far and to its own literal, and the first exception of an
    operator is the exception of the program. *)
Theorem evaluate_chain (fuel : nat) (v0 : pyval) (steps : list (string * pyval))
    (global_var : pyval) (h : heap) :
  _evaluate_program (S fuel) (Var v0 :: chain steps) global_var h
  = (fold_chain v0 steps, h).
Proof.
  change (_evaluate_program (S fuel) (Var v0 :: chain steps) global_var h)
    with (bind (exec_loop (_evaluate_program fuel)
                  (S (length (chain steps))) (Var v0 :: chain steps)
                  global_var 0 []) final_check h).
  unfold bind. rewrite (exec_loop_S_Var _ _ _ _ _ _ _ v0) by reflexivity.
  pose proof (exec_loop_chain (_evaluate_program fuel) global_var h steps
                [Var v0] v0 (length (chain steps)) (Nat.le_refl _)) as Hrun.
  simpl in Hrun. simpl. rewrite Hrun.
  pose proof (fold_chain_fuel steps v0) as Hfuel.
  destruct (fold_chain v0 steps); [reflexivity | reflexivity | congruence].
Qed.

(** Without precedence [2 + 3 * 4] is 20. *)
Example evaluate_2_plus_3_times_4 :
  _evaluate_program 1 (Var (VNum 2) :: chain [("+", VNum 3); ("*", VNum 4)])
    VNone ∅
  = (Ok (VNum 20), ∅).
Proof. reflexivity. Qed.

(** ** Evaluator: function calls *)

Lemma for_each_values {A B} (f : A -> M B) (args : list A) (vs : list B) :
  Forall2 (fun arg v => forall h, f arg h = (Ok v, h)) args vs ->
  forall h, for_each f args h = (Ok vs, h).
Proof.
  induction 1 as [|arg v args vs Harg _ IH]; intros h; [reflexivity|].
  simpl. unfold bind. rewrite Harg, IH. reflexivity.
Qed.

(** A call evaluated as a program of its own: the arguments, then the
    function. *)
Lemma evaluate_call fuel func args vs global_var h :
  Forall2 (fun arg v => forall h', _evaluate_program fuel arg VNone h' = (Ok v, h'))
    args vs ->
  _evaluate_program (S fuel) [Func func args] global_var h
  = _run_func func vs global_var h.
Proof.
  intros Hargs.
  change (_evaluate_program (S fuel) [Func func args] global_var h)
    with (bind
            (bind (for_each (fun arg => _evaluate_program fuel arg VNone) args)
               (fun args' =>
                  bind (_run_func func args' global_var)
                    (fun r => exec_loop (_evaluate_program fuel) 0
                                [Func func args] global_var (0 + 1) ([] ++ [r]))))
            final_check h).
  unfold bind at 1 2.
  rewrite (for_each_values _ _ _ Hargs). unfold bind.
  destruct (_run_func func vs global_var h) as [[r | e |] h']; reflexivity.
Qed.

(** X18: a call that is the whole program has the value of its function
    on the values of its arguments, each argument evaluated as a program of
    its own and without the context; the exception of the function is the
    exception of the program. *)
Theorem evaluate_function_call (fuel : nat) (func : string)
    (args : list (list node)) (vs : list pyval) (global_var : pyval) (h : heap) :
  Forall2 (fun arg v => forall h', _evaluate_program fuel arg VNone h' = (Ok v, h'))
    args vs ->
  _evaluate_program (S fuel) [Func func args] global_var h
  = _run_func func vs global_var h.
Proof. apply evaluate_call. Qed.

Lemma evaluate_function_call_witness :
  _evaluate_program 2
    [Func "max" [[Var (VNum 1)]; [Var (VNum 5)]; [Var (VNum 3)]]] VNone ∅
  = _run_func "max" [VNum 1; VNum 5; VNum 3] VNone ∅.
Proof.
  apply (evaluate_function_call 1 "max"
           [[Var (VNum 1)]; [Var (VNum 5)]; [Var (VNum 3)]]
           [VNum 1; VNum 5; VNum 3] VNone ∅).
  repeat (constructor; [intros h'; reflexivity|]).
  constructor.
Defined.

Example evaluate_max_1_5_3 :
  _evaluate_program 2
    [Func "max" [[Var (VNum 1)]; [Var (VNum 5)]; [Var (VNum 3)]]] VNone ∅
  = (Ok (VNum 5), ∅).
Proof. reflexivity. Qed.

(** ** Evaluator: the context does not reach nested calls *)

Lemma split_from_cons (sep : ascii) (s : string) :
  forall cur, exists seg rest, split_from sep s cur = seg :: rest.
Proof.
  induction s as [|c s IH]; intros cur; simpl; [eauto|].
  destruct (Ascii.eqb c sep); [eauto | apply IH].
Qed.

Lemma lookup_walk_None (path : string) (h : heap) :
  lookup_walk (split "." path) VNone h = (Raise TypeError, h).
Proof.
  destruct (split_from_cons "." path []) as [seg [rest Hsplit]].
  unfold split. rewrite Hsplit. reflexivity.
Qed.

Lemma evaluate_lookup_None fuel path h :
  _evaluate_program (S (S fuel)) [Func "lookup" [[Var (VStr path)]]] VNone h
  = (Raise TypeError, h).
Proof.
  rewrite (evaluate_call (S fuel) "lookup" _ [VStr path]).
  - apply lookup_walk_None.
  - constructor; [intros h'; reflexivity | constructor].
Qed.

(** X16: [lookup] reads the context only as the call at the top of the
    program.  Without a context ([global_var] is [None]), as the first
    argument of another call, and as the right operand of an operator, it
    raises [TypeError] for every path and every context: the nested
    evaluations are not given the context. *)
Theorem evaluate_nested_lookup (fuel : nat) (path : string) (h : heap) :
  _evaluate_program (S (S fuel)) [Func "lookup" [[Var (VStr path)]]] VNone h
  = (Raise TypeError, h)
  /\ (forall func others global_var,
        _evaluate_program (S (S (S fuel)))
          [Func func ([Func "lookup" [[Var (VStr path)]]] :: others)]
          global_var h
        = (Raise TypeError, h))
  /\ (forall v op global_var,
        _evaluate_program (S (S (S fuel)))
          [Var v; Arithmatic op; Func "lookup" [[Var (VStr path)]]]
          global_var h
        = (Raise TypeError, h)).
Proof.
  split; [apply evaluate_lookup_None|]. split.
  - intros func others global_var.
    change (_evaluate_program (S (S (S fuel)))
              [Func func ([Func "lookup" [[Var (VStr path)]]] :: others)]
              global_var h)
      with (bind
              (bind
                 (bind (_evaluate_program (S (S fuel))
                          [Func "lookup" [[Var (VStr path)]]] VNone)
                    (fun y =>
                       bind (for_each
                               (fun arg => _evaluate_program (S (S fuel)) arg VNone)
                               others)
                         (fun ys => ret (y :: ys))))
                 (fun args' =>
                    bind (_run_func func args' global_var)
                      (fun r => exec_loop (_evaluate_program (S (S fuel))) 0
                                  [Func func ([Func "lookup" [[Var (VStr path)]]]
                                              :: others)]
                                  global_var (0 + 1) ([] ++ [r]))))
              final_check h).
    unfold bind at 1 2 3. rewrite evaluate_lookup_None. reflexivity.
  - intros v op global_var.
    change (_evaluate_program (S (S (S fuel)))
              [Var v; Arithmatic op; Func "lookup" [[Var (VStr path)]]]
              global_var h)
      with (bind
              (bind (_evaluate_program (S (S fuel))
                       [Func "lookup" [[Var (VStr path)]]] VNone)
                 (fun var2 =>
                    bind (lift (pop ([] ++ [v])))
                      (fun '(var1, exec_stack) =>
                         bind (lift (apply_arithmatic op var1 var2))
                           (fun r =>
                              exec_loop (_evaluate_program (S (S fuel))) 1
                                [Var v; Arithmatic op;
                                 Func "lookup" [[Var (VStr path)]]]
                                global_var (0 + 1 + 2) (exec_stack ++ [r])))))
              final_check h).
    unfold bind at 1 2. rewrite evaluate_lookup_None. reflexivity.
Qed.

(** With the context of the sensor, the call at the top finds the
    temperature and the same call inside [max] does not. *)
Example lookup_top_and_nested :
  _evaluate_program 2 [Func "lookup" [[Var (VStr "sensor.temp")]]] (VRef 0)
    sensor_heap
  = (Ok (VNum 21.5), sensor_heap)
  /\ _evaluate_program 3
       [Func "max" [[Func "lookup" [[Var (VStr "sensor.temp")]]]; [Var (VNum 1)]]]
       (VRef 0) sensor_heap
     = (Raise TypeError, sensor_heap).
Proof. split; vm_compute; reflexivity. Qed.

(** ** Evaluator: min and max *)

Lemma py_lt_kind (a b : pyval) :
  (is_num a && is_num b) || (is_str a && is_str b) = true ->
  exists c, py_lt a b = Ok c.
Proof. destruct a, b; simpl; try discriminate; eauto. Qed.

Lemma py_lt_mixed (a b : pyval) :
  (is_num a && is_num b) || (is_str a && is_str b) = false ->
  py_lt a b = Raise TypeError.
Proof. destruct a, b; simpl; try discriminate; reflexivity. Qed.

(** The scan of [min] and of [max] over items of the kind of the first:
    one of the items is returned. *)
Lemma select_same_kind (kind : pyval -> bool) (flip : bool) :
  (forall a b, kind a = true -> kind b = true -> exists c, py_lt a b = Ok c) ->
  forall rest best,
    kind best = true -> forallb kind rest = true ->
    exists v,
      (if flip then max_from best rest else min_from best rest) = Ok v
      /\ In v (best :: rest) /\ kind v = true.
Proof.
  intros Hlt. induction rest as [|item rest IH]; intros best Hbest Hrest.
  - exists best. destruct flip; simpl; auto.
  - simpl in Hrest. apply andb_prop in Hrest. destruct Hrest as [Hitem Hrest].
    destruct flip; simpl.
    + destruct (Hlt best item Hbest Hitem) as [c ->]. simpl.
      destruct (IH (if c then item else best)) as [v [Hv [Hin Hk]]];
        [destruct c; assumption | exact Hrest |].
      exists v. split; [exact Hv|]. split; [|exact Hk].
      destruct c; simpl in Hin; simpl; tauto.
    + destruct (Hlt item best Hitem Hbest) as [c ->]. simpl.
      destruct (IH (if c then item else best)) as [v [Hv [Hin Hk]]];
        [destruct c; assumption | exact Hrest |].
      exists v. split; [exact Hv|]. split; [|exact Hk].
      destruct c; simpl in Hin; simpl; tauto.
Qed.

Lemma select_comparable (flip : bool) (first : pyval) (rest : list pyval) :
  comparable (first :: rest) = true ->
  exists v,
    (if flip then max_from first rest else min_from first rest) = Ok v
    /\ In v (first :: rest).
Proof.
  unfold comparable. simpl. intros H. apply orb_prop in H.
  destruct H as [H | H]; apply andb_prop in H; destruct H as [Hfirst Hrest].
  - destruct (select_same_kind is_num flip) with (rest := rest) (best := first)
      as [v [Hv [Hin _]]]; eauto.
    intros a b Ha Hb. apply py_lt_kind. now rewrite Ha, Hb.
  - destruct (select_same_kind is_str flip) with (rest := rest) (best := first)
      as [v [Hv [Hin _]]]; eauto.
    intros a b Ha Hb. apply py_lt_kind. now rewrite Ha, Hb, orb_true_r.
Qed.

(** The scan over items that are not all floats and not all strings stops
    at the first comparison across kinds. *)
Lemma select_mixed (flip : bool) :
  forall rest best,
    rest <> [] ->
    comparable (best :: rest) = false ->
    (if flip then max_from best rest else min_from best rest) = Raise TypeError.
Proof.
  induction rest as [|item rest IH]; intros best Hne Hmixed; [contradiction|].
  destruct ((is_num best && is_num item) || (is_str best && is_str item))
    eqn:Hkind.
  - assert (Hnext : forall c : bool, comparable ((if c then item else best) :: rest)
                              = false).
    { intros c. unfold comparable in *. simpl in *.
      destruct best, item, c; simpl in *; try discriminate; exact Hmixed. }
    assert (Hrest : rest <> []).
    { intros ->. unfold comparable in Hmixed. simpl in Hmixed.
      destruct best, item; simpl in *; discriminate. }
    destruct flip; simpl.
    + destruct (py_lt_kind best item Hkind) as [c ->]. simpl.
      apply (IH _ Hrest (Hnext c)).
    + assert (Hkind' : (is_num item && is_num best)
                       || (is_str item && is_str best) = true)
        by (destruct best, item; simpl in *; congruence).
      destruct (py_lt_kind item best Hkind') as [c ->]. simpl.
      apply (IH _ Hrest (Hnext c)).
  - destruct flip; simpl.
    + now rewrite (py_lt_mixed best item Hkind).
    + assert (Hkind' : (is_num item && is_num best)
                       || (is_str item && is_str best) = false)
        by (destruct best, item; simpl in *; congruence).
      now rewrite (py_lt_mixed item best Hkind').
Qed.

(** X17: [min] and [max] raise [ValueError] without arguments and return
    their argument when they have one, whatever it is; on several
    arguments they return one of them when all are floats or all are
    strings, and raise [TypeError] otherwise. *)
Theorem run_func_min_max (func_name : string) (args : list pyval)
    (global_var : pyval) (h : heap) :
  func_name = "min" \/ func_name = "max" ->
  match args with
  | [] => _run_func func_name args global_var h = (Raise ValueError, h)
  | [v] => _run_func func_name args global_var h = (Ok v, h)
  | _ =>
      if comparable args then
        exists v, In v args
                  /\ _run_func func_name args global_var h = (Ok v, h)
      else _run_func func_name args global_var h = (Raise TypeError, h)
  end.
Proof.
  intros [-> | ->]; destruct args as [|first [|second rest]]; try reflexivity.
  - destruct (comparable (first :: second :: rest)) eqn:Hcmp.
    + destruct (select_comparable false first (second :: rest) Hcmp)
        as [v [Hv Hin]].
      exists v. split; [exact Hin|].
      unfold _run_func, lift, py_min. simpl String.eqb. cbv iota.
      now rewrite <- Hv.
    + unfold _run_func, lift, py_min. simpl String.eqb. cbv iota.
      now rewrite <- (select_mixed false (second :: rest) first).
  - destruct (comparable (first :: second :: rest)) eqn:Hcmp.
    + destruct (select_comparable true first (second :: rest) Hcmp)
        as [v [Hv Hin]].
      exists v. split; [exact Hin|].
      unfold _run_func, lift, py_max. simpl String.eqb. cbv iota.
      now rewrite <- Hv.
    + unfold _run_func, lift, py_max. simpl String.eqb. cbv iota.
      now rewrite <- (select_mixed true (second :: rest) first).
Qed.

Lemma run_func_min_max_witness :
  _run_func "min" [VNum 1; VStr "a"] VNone ∅ = (Raise TypeError, ∅)
  /\ _run_func "max" [VNone] VNone ∅ = (Ok VNone, ∅).
Proof.
  split.
  - apply (run_func_min_max "min" [VNum 1; VStr "a"] VNone ∅). left. reflexivity.
  - apply (run_func_min_max "max" [VNone] VNone ∅). right. reflexivity.
Defined.

(** ** Evaluator: an operator without its operands *)

(** X19: an operator that is the first node of a program, before a
    literal, finds the stack empty, and an operator that is the last node,
    after literals, finds no node after it: both raise [IndexError]. *)
Theorem evaluate_operator_without_operand (fuel : nat) (op : string)
    (global_var : pyval) (h : heap) :
  (forall v rest,
     _evaluate_program (S fuel) (Arithmatic op :: Var v :: rest) global_var h
     = (Raise IndexError, h))
  /\ (forall vs,
     _evaluate_program (S fuel) (map Var vs ++ [Arithmatic op]) global_var h
     = (Raise IndexError, h)).
Proof.
  split.
  - intros v rest. reflexivity.
  - intros vs.
    change (_evaluate_program (S fuel) (map Var vs ++ [Arithmatic op]) global_var h)
      with (bind (exec_loop (_evaluate_program fuel)
                    (length (map Var vs ++ [Arithmatic op]))
                    (map Var vs ++ [Arithmatic op]) global_var 0 [])
              final_check h).
    pose proof (exec_loop_literals (_evaluate_program fuel) global_var
                  [Arithmatic op] h vs [] [] 1) as Hrun.
    change ([] ++ map Var vs ++ [Arithmatic op])
      with (map Var vs ++ [Arithmatic op]) in Hrun.
    change (@length node [] + length vs) with (length vs) in Hrun.
    change (@length node []) with 0 in Hrun.
    unfold bind. rewrite length_app, length_map. simpl length.
    rewrite Hrun. simpl.
    rewrite (list_lookup_middle (map Var vs) [] (Arithmatic op) (length vs))
      by (now rewrite length_map).
    rewrite lookup_ge_None_2 by (rewrite length_app, length_map; simpl; lia).
    reflexivity.
Qed.

(** ** Evaluator: termination *)

Lemma evaluate_program_total_witness :
  has_fuel (_evaluate_program 3 prog_min_1_2_plus_3 VNone).
Proof.
  apply (proj1 (evaluate_program_total 3) prog_min_1_2_plus_3 VNone).
  vm_compute. lia.
Defined.

(** ** The entry point: evaluate_script *)

(** X20: [evaluate_script] returns no value on any script: on a script
    with a character of no class it raises the exception of the lexer,
    naming the first such character, and on every other script it raises
    [NameError] on [_parse_program]; in both cases the heap is left as it
    was. *)
Theorem evaluate_script_never_returns (fuel : nat) (script : string)
    (timezone global_var : pyval) (h : heap) :
  evaluate_script fuel script timezone global_var h
  = (Raise (match List.find illegal (list_ascii_of_string script) with
            | Some c => InvalidFythonSyntaxException (IllegalSymbol c)
            | None => NameError "_parse_program"
            end), h).
Proof.
  pose proof (decompose_script_find_illegal script) as Hlex.
  unfold evaluate_script, bind, lift, raise.
  destruct (List.find illegal (list_ascii_of_string script)) as [c|].
  - now rewrite Hlex.
  - destruct Hlex as [word_list ->]. reflexivity.
Qed.

(** The letter e with an acute accent (code point 233) is a word
    character: the lexer returns it as a word, and the entry point goes on
    to the name it cannot find. *)
Example evaluate_script_accented_letter :
  decompose_script (String (ascii_of_nat 233) "")
  = Ok [String (ascii_of_nat 233) ""]
  /\ evaluate_script 1 (String (ascii_of_nat 233) "") VNone VNone ∅
     = (Raise (NameError "_parse_program"), ∅).
Proof. split; vm_compute; reflexivity. Qed.
